(** * SyMPC [sympc/utils/mpc_utils.py]: a shallow embedding

    The module offers the ring/dtype registry, the wrap counter of additive
    shares, the seeded generator helpers and the bit decomposition.  Python
    integers are [Z]; a torch tensor is a shape with its row-major data; a
    fixed-width element is a [Z] kept in range by an explicit wrap-around;
    the float32 values that [decompose] goes through are [spec_float]s of
    precision 24; a raised exception is the [Raise] branch of [result]. *)

From Stdlib Require Import ZArith Lia.
From Stdlib Require Import Floats.SpecFloat.
From stdpp Require Import base option numbers list gmap strings countable.

Local Open Scope Z_scope.

(** ** Exceptions and the result monad *)

Inductive exn : Type :=
  | ValueError (msg : string)
  | IndexError (msg : string)
  | RuntimeError (msg : string).

Inductive result (A : Type) : Type :=
  | Ok (a : A)
  | Raise (e : exn).
Arguments Ok {A} a.
Arguments Raise {A} e.

#[global] Instance result_ret : MRet result := λ A a, Ok a.
#[global] Instance result_bind : MBind result := λ A B f m,
  match m with
  | Ok a => f a
  | Raise e => Raise e
  end.
#[global] Instance result_fmap : FMap result := λ A B f m,
  match m with
  | Ok a => Ok (f a)
  | Raise e => Raise e
  end.

Definition returns {A} (m : result A) : Prop := ∃ a, m = Ok a.
Definition raises {A} (m : result A) : Prop := ∃ e, m = Raise e.

(** ** torch dtypes *)

Inductive dtype : Type :=
  | torch_bool
  | torch_uint8
  | torch_int8
  | torch_int16
  | torch_int32
  | torch_int64
  | torch_float16
  | torch_bfloat16
  | torch_float32
  | torch_float64
  | torch_complex64
  | torch_complex128.

#[global] Instance dtype_eq_dec : EqDecision dtype.
Proof. solve_decision. Defined.

Definition dtype_code (t : dtype) : nat :=
  match t with
  | torch_bool => 0 | torch_uint8 => 1 | torch_int8 => 2 | torch_int16 => 3
  | torch_int32 => 4 | torch_int64 => 5 | torch_float16 => 6
  | torch_bfloat16 => 7 | torch_float32 => 8 | torch_float64 => 9
  | torch_complex64 => 10 | torch_complex128 => 11
  end%nat.

Definition dtype_of_code (n : nat) : dtype :=
  match n with
  | 0 => torch_bool | 1 => torch_uint8 | 2 => torch_int8 | 3 => torch_int16
  | 4 => torch_int32 | 5 => torch_int64 | 6 => torch_float16
  | 7 => torch_bfloat16 | 8 => torch_float32 | 9 => torch_float64
  | 10 => torch_complex64 | _ => torch_complex128
  end%nat.

#[global] Instance dtype_countable : Countable dtype.
Proof. by apply (inj_countable' dtype_code dtype_of_code); intros []. Defined.

(** ** RingTypeRegistry: the two module-level dictionaries *)

Definition RING_SIZE_TO_TYPE : gmap Z dtype :=
  <[2 ^ 64 := torch_int64]>
  (<[2 ^ 32 := torch_int32]>
  (<[2 ^ 16 := torch_int16]>
  (<[2 ^ 8 := torch_int8]>
  (<[2 ^ 1 := torch_bool]> ∅)))).

Definition TYPE_TO_RING_SIZE : gmap dtype Z :=
  <[torch_int64 := 2 ^ 64]>
  (<[torch_int32 := 2 ^ 32]>
  (<[torch_int16 := 2 ^ 16]>
  (<[torch_int8 := 2 ^ 8]>
  (<[torch_bool := 2 ^ 1]> ∅)))).

Definition ring_keys_msg : string :=
  "Ring size should be in dict_keys([2, 256, 65536, 4294967296, 18446744073709551616])".
Definition type_keys_msg : string :=
  "Torch type should be in dict_keys([torch.bool, torch.int8, torch.int16, torch.int32, torch.int64])".

(** [lru_cache] memoises a function of its argument alone; the cached
    answer is the computed one, so the cache is left out. *)
Definition get_type_from_ring (ring_size : Z) : result dtype :=
  match RING_SIZE_TO_TYPE !! ring_size with
  | None => Raise (ValueError ring_keys_msg)
  | Some t => Ok t
  end.

Definition get_ring_size_from_type (dt : dtype) : result Z :=
  match TYPE_TO_RING_SIZE !! dt with
  | None => Raise (ValueError type_keys_msg)
  | Some r => Ok r
  end.

Definition supported_ring_sizes : list Z := [2 ^ 1; 2 ^ 8; 2 ^ 16; 2 ^ 32; 2 ^ 64].
Definition supported_dtypes : list dtype :=
  [torch_bool; torch_int8; torch_int16; torch_int32; torch_int64].

(** ** get_nr_bits *)

(** Python's [int.bit_length]: the number of binary digits of the absolute
    value, [0] for [0]. *)
Definition bit_length (x : Z) : Z :=
  match x with
  | Z0 => 0
  | Zpos p | Zneg p => Z.pos (Pos.size p)
  end.

Definition get_nr_bits (ring_size : Z) : Z := bit_length (ring_size - 1).

(** ** Tensors

    A tensor is its shape and its elements in row-major order.  The element
    type of an integer tensor is one of the signed fixed-width dtypes. *)

Record tensor (A : Type) : Type := Tensor { shape : list nat; data : list A }.
Arguments Tensor {A} shape data.
Arguments shape {A} t.
Arguments data {A} t.

Definition numel (s : list nat) : nat := foldr Nat.mul 1%nat s.

Inductive int_dtype : Type := int8 | int16 | int32 | int64.

#[global] Instance int_dtype_eq_dec : EqDecision int_dtype.
Proof. solve_decision. Defined.

Definition to_dtype (t : int_dtype) : dtype :=
  match t with
  | int8 => torch_int8 | int16 => torch_int16
  | int32 => torch_int32 | int64 => torch_int64
  end.

Definition bits (t : int_dtype) : Z :=
  match t with int8 => 8 | int16 => 16 | int32 => 32 | int64 => 64 end.

Definition min_value (t : int_dtype) : Z := - 2 ^ (bits t - 1).
Definition max_value (t : int_dtype) : Z := 2 ^ (bits t - 1) - 1.

(** Two's complement wrap-around of the fixed-width arithmetic. *)
Definition wrap (t : int_dtype) (z : Z) : Z :=
  (z + 2 ^ (bits t - 1)) `mod` 2 ^ bits t - 2 ^ (bits t - 1).

Definition in_range (t : int_dtype) (z : Z) : Prop :=
  min_value t ≤ z ≤ max_value t.

(** torch.promote_types on the signed integer dtypes: the wider one. *)
Definition promote_types (a b : int_dtype) : int_dtype :=
  if bool_decide (bits a ≤ bits b) then b else a.

Record itensor : Type := ITensor { idtype : int_dtype; ival : tensor Z }.

Definition wf_tensor {A} (t : tensor A) : Prop :=
  length (data t) = numel (shape t).

Definition wf_itensor (t : itensor) : Prop :=
  wf_tensor (ival t) ∧ Forall (in_range (idtype t)) (data (ival t)).

(** *** Broadcasting *)

(** Shapes are aligned at their last dimension; two dimensions are
    compatible when they are equal or one of them is 1. *)
Fixpoint broadcast_rev (s1 s2 : list nat) : option (list nat) :=
  match s1, s2 with
  | [], _ => Some s2
  | _, [] => Some s1
  | a :: s1', b :: s2' =>
      r ← broadcast_rev s1' s2';
      if decide (a = b) then Some (a :: r)
      else if decide (a = 1%nat) then Some (b :: r)
      else if decide (b = 1%nat) then Some (a :: r)
      else None
  end.

Definition broadcast_shapes (s1 s2 : list nat) : option (list nat) :=
  reverse <$> broadcast_rev (reverse s1) (reverse s2).

Definition pad_shape (s : list nat) (n : nat) : list nat :=
  replicate (n - length s) 1%nat ++ s.

(** [chunks k n d]: the [n] consecutive blocks of [k] elements of [d]. *)
Definition chunks {A} (k n : nat) (d : list A) : list (list A) :=
  reshape (replicate n k) d.

(** The data of a tensor of shape [s] seen at the shape [t]: a dimension
    of size 1 is repeated along the dimension of [t] it faces. *)
Fixpoint expand_aligned {A} (s t : list nat) (d : list A) : list A :=
  match s, t with
  | n :: s', m :: t' =>
      if decide (n = m)
      then mjoin (expand_aligned s' t' <$> chunks (numel s') n d)
      else mjoin (replicate m (expand_aligned s' t' d))
  | _, _ => d
  end.

Definition expand_to {A} (s t : list nat) (d : list A) : list A :=
  expand_aligned (pad_shape s (length t)) t d.

Definition broadcast_msg : string :=
  "The size of tensor a must match the size of tensor b at non-singleton dimension".
Definition inplace_msg : string :=
  "output with shape doesn't match the broadcast shape".

(** An element-wise binary operator, out of place. *)
Definition broadcast_with {A B C} (f : A → B → C)
    (x : tensor A) (y : tensor B) : result (tensor C) :=
  match broadcast_shapes (shape x) (shape y) with
  | None => Raise (RuntimeError broadcast_msg)
  | Some s =>
      Ok (Tensor s (zip_with f (expand_to (shape x) s (data x))
                               (expand_to (shape y) s (data y))))
  end.

(** An element-wise binary operator in place on its left operand, whose
    shape the broadcast must not change. *)
Definition inplace_with {A B} (f : A → B → A)
    (x : tensor A) (y : tensor B) : result (tensor A) :=
  match broadcast_shapes (shape x) (shape y) with
  | None => Raise (RuntimeError broadcast_msg)
  | Some s =>
      if decide (s = shape x)
      then Ok (Tensor s (zip_with f (data x) (expand_to (shape y) s (data y))))
      else Raise (RuntimeError inplace_msg)
  end.

Definition tmap {A B} (f : A → B) (x : tensor A) : tensor B :=
  Tensor (shape x) (f <$> data x).

(** *** The torch operators of [count_wraps] *)

(** [torch.zeros(size=..., dtype=...)] *)
Definition zeros (size : list nat) (dt : int_dtype) : itensor :=
  ITensor dt (Tensor size (replicate (numel size) 0)).

(** [x + y] *)
Definition add (x y : itensor) : result itensor :=
  let dt := promote_types (idtype x) (idtype y) in
  ITensor dt <$> broadcast_with (λ a b, wrap dt (a + b)) (ival x) (ival y).

(** [x < c] and [x > c] for a Python number [c] *)
Definition lt_scalar (x : itensor) (c : Z) : tensor bool :=
  tmap (λ v, bool_decide (v < c)) (ival x).
Definition gt_scalar (x : itensor) (c : Z) : tensor bool :=
  tmap (λ v, bool_decide (v > c)) (ival x).

(** [x & y] on masks *)
Definition and_ (x y : tensor bool) : result (tensor bool) :=
  broadcast_with andb x y.

(** [x.long()]: True is 1 and False is 0 *)
Definition mask_value (b : bool) : Z := if b then 1 else 0.
Definition long (x : tensor bool) : itensor :=
  ITensor int64 (tmap mask_value x).

(** [x -= y] and [x += y] *)
Definition isub (x y : itensor) : result itensor :=
  ITensor (idtype x) <$>
    inplace_with (λ a b, wrap (idtype x) (a - b)) (ival x) (ival y).
Definition iadd (x y : itensor) : result itensor :=
  ITensor (idtype x) <$>
    inplace_with (λ a b, wrap (idtype x) (a + b)) (ival x) (ival y).

(** ** WrapCounter *)

(** The body of the loop over [share_list[1:]]; the state is the pair of
    [res] and [prev_share]. *)
Definition count_wraps_body (st : itensor * itensor) (cur_share : itensor)
    : result (itensor * itensor) :=
  let '(res, prev_share) := st in
  next_share ← add cur_share prev_share;
  (* prev and current negative, the result positive: an underflow *)
  m ← and_ (lt_scalar prev_share 0) (lt_scalar cur_share 0);
  m ← and_ m (gt_scalar next_share 0);
  res ← isub res (long m);
  (* prev and current positive, the result negative: an overflow *)
  m ← and_ (gt_scalar prev_share 0) (gt_scalar cur_share 0);
  m ← and_ m (lt_scalar next_share 0);
  res ← iadd res (long m);
  Ok (res, next_share).

Fixpoint for_each {S A} (body : S → A → result S) (st : S) (l : list A)
    : result S :=
  match l with
  | [] => Ok st
  | x :: l' => st' ← body st x; for_each body st' l'
  end.

Definition index_msg : string := "list index out of range".

Definition count_wraps (share_list : list itensor) : result itensor :=
  match share_list !! 0%nat with
  | None => Raise (IndexError index_msg)
  | Some first =>
      let res := zeros (shape (ival first)) int64 in
      let prev_share := first in
      st ← for_each count_wraps_body (res, prev_share) (drop 1 share_list);
      Ok st.1
  end.

(** ** float32

    True division of integer tensors computes in the default dtype,
    float32: IEEE 754 binary32, precision 24 and maximal exponent 128,
    rounding to nearest, ties to even. *)

Definition prec32 : Z := 24.
Definition emax32 : Z := 128.

(** The conversion of an integer to float32. *)
Definition f32_of_Z (z : Z) : spec_float := binary_normalize prec32 emax32 z 0 false.

Definition f32_div (x y : spec_float) : spec_float := SFdiv prec32 emax32 x y.

(** C's [fmodf]: the exact remainder of the truncated quotient, with the
    sign of the dividend. *)
Definition f32_fmod (x y : spec_float) : spec_float :=
  match x, y with
  | S754_nan, _ | _, S754_nan => S754_nan
  | S754_infinity _, _ => S754_nan
  | _, S754_zero _ => S754_nan
  | _, S754_infinity _ => x
  | S754_zero _, _ => x
  | S754_finite sx mx ex, S754_finite _ my ey =>
      let e := Z.min ex ey in
      let r := (Z.pos mx * 2 ^ (ex - e)) `mod` (Z.pos my * 2 ^ (ey - e)) in
      binary_normalize prec32 emax32 (cond_Zopp sx r) e sx
  end.

(** The integer part of a float, as the cast to an integer type takes it.
    The cast of an infinity or a NaN is unspecified; it is [0] here. *)
Definition f32_trunc (x : spec_float) : Z :=
  match x with
  | S754_finite s m e =>
      cond_Zopp s (if bool_decide (0 ≤ e) then Z.pos m * 2 ^ e
                   else Z.pos m `div` 2 ^ (- e))
  | _ => 0
  end.

(** ** BitDecomposer *)

Definition int_dtype_of (dt : dtype) : option int_dtype :=
  match dt with
  | torch_int8 => Some int8 | torch_int16 => Some int16
  | torch_int32 => Some int32 | torch_int64 => Some int64
  | _ => None
  end.

Definition arange_msg : string := "arange_cpu not implemented for this dtype".

(** [torch.arange(n, dtype=dt)].  Of the dtypes of the registry, the
    signed integer ones have an arange kernel and torch.bool has none. *)
Definition arange (n : Z) (dt : dtype) : result itensor :=
  match int_dtype_of dt with
  | Some t => Ok (ITensor t (Tensor [Z.to_nat n] (wrap t <$> seqZ 0 n)))
  | None => Raise (RuntimeError arange_msg)
  end.

(** [x.unsqueeze(0)] and [x.unsqueeze(-1)] *)
Definition unsqueeze_first {A} (x : tensor A) : tensor A :=
  Tensor (1%nat :: shape x) (data x).
Definition unsqueeze_last {A} (x : tensor A) : tensor A :=
  Tensor (shape x ++ [1%nat]) (data x).

(** [c ** x] for a Python integer [c]: the power in the dtype of [x]. *)
Definition rpow (c : Z) (x : itensor) : itensor :=
  ITensor (idtype x) (tmap (λ p, wrap (idtype x) (c ^ p)) (ival x)).

(** [x.to(dt)] between integer dtypes *)
Definition to_int (dt : int_dtype) (x : itensor) : itensor :=
  ITensor dt (tmap (wrap dt) (ival x)).

(** [x / y] on integer tensors.  Since torch 1.7 this is the true
    division: both operands are converted to the default dtype, float32,
    and divided there (torch 1.6 refused integer operands, and only before
    that was [/] an integer division).  The quotient is a float tensor,
    which is why the source casts the result of [torch.fmod] back with
    [.to(tensor_type)]. *)
Definition true_divide (x y : itensor) : result (tensor spec_float) :=
  broadcast_with (λ a b, f32_div (f32_of_Z a) (f32_of_Z b)) (ival x) (ival y).

(** [torch.fmod(x, c)] for a Python number [c] *)
Definition fmod (x : tensor spec_float) (c : Z) : tensor spec_float :=
  tmap (λ v, f32_fmod v (f32_of_Z c)) x.

(** [x.to(dt)] from float32 to an integer dtype *)
Definition float_to_int (dt : int_dtype) (x : tensor spec_float) : itensor :=
  ITensor dt (tmap (λ v, wrap dt (f32_trunc v)) x).

Definition decompose (tensor : itensor) (ring_size : Z)
    (shape_arg : option (list nat)) : result itensor :=
  tensor_type ← get_type_from_ring ring_size;
  let nr_bits := get_nr_bits ring_size in
  powers ← arange nr_bits tensor_type;
  (* from here on [tensor_type] is the dtype of [powers] *)
  let tensor_type := idtype powers in
  let shape_ := default (shape (ival tensor)) shape_arg in
  let powers :=
    ITensor tensor_type (Nat.iter (length shape_) unsqueeze_first (ival powers)) in
  let tensor := ITensor (idtype tensor) (unsqueeze_last (ival tensor)) in
  let moduli := to_int tensor_type (rpow 2 powers) in
  quotient ← true_divide tensor moduli;
  Ok (float_to_int tensor_type (fmod quotient 2)).

(** Reading the bits back: the sum of [bit[i] * 2^i]. *)
Fixpoint recompose_from (i : Z) (bits : list Z) : Z :=
  match bits with
  | [] => 0
  | b :: bits' => b * 2 ^ i + recompose_from (i + 1) bits'
  end.
Definition recompose (bits : list Z) : Z := recompose_from 0 bits.

(** ** SeededRandomRing

    Generators are objects of the heap: a handle is a location of the
    store, and a draw advances the state kept at that location.  The
    generator algorithm belongs to torchcsprng and torch; it is a parameter
    here, through the seeding function and the function that fills a tensor
    of a given dtype, shape and device from a generator state. *)



Section SeededRandomRing.
Context {gen_state : Type}.
(** [csprng.create_mt19937_generator(seed=...)] *)
Variable create_mt19937_generator : Z → gen_state.
(** The elements [Tensor.random_] writes and the state it leaves. *)
Variable random_fill : dtype → string → list nat → gen_state → list Z * gen_state.






End SeededRandomRing.

(** ** The wrap count as the specification words it

    A left-to-right fold over the shares at one element position, from the
    accumulated sum [acc] = the first share and a counter at zero.  These
    definitions follow the specification, not the source; they are what
    [count_wraps] is compared with. *)

(** One step on the accumulated sum [acc] and the counter [count], which
    is an element of the torch.long result. *)
Definition fold_step (dt : int_dtype) (st : Z * Z) (s : Z) : Z * Z :=
  let '(acc, count) := st in
  let next := wrap dt (acc + s) in
  let count :=
    if bool_decide (acc < 0 ∧ s < 0 ∧ next > 0) then wrap int64 (count - 1)
    else count in
  let count :=
    if bool_decide (acc > 0 ∧ s > 0 ∧ next < 0) then wrap int64 (count + 1)
    else count in
  (next, count).

Definition fold_count (dt : int_dtype) (column : list Z) : Z :=
  match column with
  | [] => 0
  | s0 :: rest => (foldl (fold_step dt) (s0, 0) rest).2
  end.

(** The same fold with an unbounded counter. *)
Definition fold_step_Z (dt : int_dtype) (st : Z * Z) (s : Z) : Z * Z :=
  let '(acc, count) := st in
  let next := wrap dt (acc + s) in
  let count :=
    if bool_decide (acc < 0 ∧ s < 0 ∧ next > 0) then count - 1 else count in
  let count :=
    if bool_decide (acc > 0 ∧ s > 0 ∧ next < 0) then count + 1 else count in
  (next, count).

Definition fold_count_Z (dt : int_dtype) (column : list Z) : Z :=
  match column with
  | [] => 0
  | s0 :: rest => (foldl (fold_step_Z dt) (s0, 0) rest).2
  end.

(** The state of all element positions after one more share. *)
Definition all_step (dt : int_dtype) (st : list (Z * Z)) (cur : itensor)
    : list (Z * Z) :=
  zip_with (fold_step dt) st (data (ival cur)).

(** The elements of the shares at the position [i]. *)
Definition column (i : nat) (shares : list itensor) : list Z :=
  (λ t, data (ival t) !!! i) <$> shares.

Definition count_wraps_fold (dt : int_dtype) (size : list nat)
    (shares : list itensor) : itensor :=
  ITensor int64
    (Tensor size ((λ i, fold_count dt (column i shares)) <$> seq 0 (numel size))).

(** A share sequence: tensors of one dtype and one shape. *)
Definition wf_shares (dt : int_dtype) (size : list nat)
    (shares : list itensor) : Prop :=
  Forall (λ t, idtype t = dt ∧ shape (ival t) = size ∧ wf_itensor t) shares.

(** Tensors of one shape, of whatever dtypes. *)
Definition shaped (size : list nat) (t : itensor) : Prop :=
  shape (ival t) = size ∧ wf_tensor (ival t).
Definition equal_shaped (size : list nat) (shares : list itensor) : Prop :=
  Forall (shaped size) shares.

(** The number of wrap-arounds of a sum of two shares: the multiple of the
    ring size by which the sum differs from its wrapped value. *)
Definition true_wraps (dt : int_dtype) (a b : Z) : Z :=
  (a + b - wrap dt (a + b)) `div` 2 ^ bits dt.

(** ** The bits of one element, as [decompose] computes them *)

(** The modulus that faces the exponent [p]: [arange], the power and the
    cast all compute in the dtype. *)
Definition modulus (dt : int_dtype) (p : Z) : Z :=
  wrap dt (wrap dt (2 ^ wrap dt p)).

Definition decompose_bit (dt : int_dtype) (v p : Z) : Z :=
  wrap dt
    (f32_trunc
       (f32_fmod (f32_div (f32_of_Z v) (f32_of_Z (modulus dt p))) (f32_of_Z 2))).

Definition bit_vector (dt : int_dtype) (v : Z) : list Z :=
  decompose_bit dt v <$> seqZ 0 (bits dt).

(** The round trip of one element, as a test. *)
Definition roundtrip_ok (dt : int_dtype) (v : Z) : bool :=
  bool_decide (recompose (bit_vector dt v) `mod` 2 ^ bits dt = v `mod` 2 ^ bits dt).

(** [P] on the [n] integers from [lo] on. *)
Fixpoint all_from (P : Z → bool) (lo : Z) (n : nat) : bool :=
  match n with
  | O => true
  | S n' => P lo && all_from P (lo + 1) n'
  end.

(** Tensors of the examples *)
Definition scalar_tensor (dt : int_dtype) (v : Z) : itensor :=
  ITensor dt (Tensor [] [v]).
Definition vector (dt : int_dtype) (d : list Z) : itensor :=
  ITensor dt (Tensor [length d] d).

(** ** What the wrap count is for *)

(** The sum of the shares as integers, without any wrap-around. *)
Definition sumZ (l : list Z) : Z := foldr Z.add 0 l.

(** The steps of the loop that add two most negative values: their sum
    wraps to zero, which [next_share > 0] does not take for an underflow. *)
Fixpoint missed_from (dt : int_dtype) (acc : Z) (rest : list Z) : Z :=
  match rest with
  | [] => 0
  | s :: rest' =>
      (if bool_decide (acc = min_value dt ∧ s = min_value dt) then 1 else 0)
      + missed_from dt (wrap dt (acc + s)) rest'
  end.

Definition missed_wraps (dt : int_dtype) (column : list Z) : Z :=
  match column with
  | [] => 0
  | s0 :: rest => missed_from dt s0 rest
  end.

(** ** The bits [decompose] gives, in closed form *)

(** Below the last position, the binary digit of the absolute value with
    the sign of the value; at the last position, whose modulus has wrapped
    to the most negative value, 1 for the most negative value and 0
    otherwise. *)
Definition signed_digit (dt : int_dtype) (v p : Z) : Z :=
  if bool_decide (p = bits dt - 1)
  then (if bool_decide (v = min_value dt) then 1 else 0)
  else Z.sgn v * Z.b2z (Z.testbit (Z.abs v) p).

Definition signed_digits (dt : int_dtype) (v : Z) : list Z :=
  signed_digit dt v <$> seqZ 0 (bits dt).

(** What the bits of [v] add up to. *)
Definition recomposed_value (dt : int_dtype) (v : Z) : Z :=
  if bool_decide (v = min_value dt) then - v else v.

Definition digits_ok (dt : int_dtype) (v : Z) : bool :=
  bool_decide (bit_vector dt v = signed_digits dt v
               ∧ recompose (bit_vector dt v) = recomposed_value dt v).

(** * Theorems *)

(** ** The result monad *)

Lemma bind_Ok {A B} (f : A → result B) a : Ok a ≫= f = f a.
Proof. reflexivity. Qed.

Lemma bind_Raise {A B} (f : A → result B) e : Raise e ≫= f = Raise e.
Proof. reflexivity. Qed.

Lemma fmap_Ok {A B} (f : A → B) a : f <$> Ok a = Ok (f a).
Proof. reflexivity. Qed.

(** Membership in a list given by its elements. *)
Ltac in_list := apply list_elem_of_In; simpl; tauto.
Ltac not_in_list :=
  let H := fresh in
  rewrite list_elem_of_In; simpl; intros H;
  repeat (destruct H as [H|H]; [discriminate H|]); exact H.

(** ** RingTypeRegistry *)

Lemma get_type_from_ring_unsupported r :
  r ∉ supported_ring_sizes →
  get_type_from_ring r = Raise (ValueError ring_keys_msg).
Proof.
  unfold supported_ring_sizes. intros Hr.
  repeat (apply not_elem_of_cons in Hr as [? Hr]).
  unfold get_type_from_ring, RING_SIZE_TO_TYPE.
  by rewrite !lookup_insert_ne, lookup_empty.
Qed.

Lemma get_type_from_ring_supported r :
  r ∈ supported_ring_sizes →
  ∃ t, RING_SIZE_TO_TYPE !! r = Some t ∧ get_type_from_ring r = Ok t
       ∧ t ∈ supported_dtypes.
Proof.
  unfold supported_ring_sizes, supported_dtypes. intros Hr.
  repeat (apply elem_of_cons in Hr as [->|Hr]);
    [..|by apply elem_of_nil in Hr];
    eexists; (split; [|split]); try reflexivity; in_list.
Qed.

Lemma get_ring_size_from_type_cases t :
  (t ∈ supported_dtypes
   ∧ (∃ r, TYPE_TO_RING_SIZE !! t = Some r
           ∧ get_ring_size_from_type t = Ok r ∧ r ∈ supported_ring_sizes))
  ∨ ((t ∉ supported_dtypes) ∧ TYPE_TO_RING_SIZE !! t = None
     ∧ get_ring_size_from_type t = Raise (ValueError type_keys_msg)).
Proof.
  unfold supported_dtypes, supported_ring_sizes.
  destruct t;
    first [ left; split; [in_list|]; eexists;
            (split; [|split]); [reflexivity..|in_list]
          | right; split; [not_in_list|]; split; reflexivity ].
Qed.

(** The two dictionaries are converse to each other. *)
Lemma registry_converse r t :
  get_type_from_ring r = Ok t ↔ get_ring_size_from_type t = Ok r.
Proof.
  split.
  - destruct (decide (r ∈ supported_ring_sizes)) as [Hr|Hr].
    + unfold supported_ring_sizes in Hr.
      repeat (apply elem_of_cons in Hr as [->|Hr]);
        [..|by apply elem_of_nil in Hr];
        intros H; vm_compute in H; injection H as <-; reflexivity.
    + by rewrite get_type_from_ring_unsupported.
  - destruct t; intros H; vm_compute in H; try discriminate H;
      injection H as <-; reflexivity.
Qed.

(** C5.  The two lookups are inverse bijections between the supported
    ring sizes and the supported dtypes: one returns [t] on [r] exactly
    when the other returns [r] on [t], a supported ring size is mapped to a
    dtype that is mapped back to it, and a supported dtype to a ring size
    that is mapped back to it. *)
Theorem registry_lookups_inverse :
  (∀ r t, get_type_from_ring r = Ok t ↔ get_ring_size_from_type t = Ok r)
  ∧ (∀ r, r ∈ supported_ring_sizes →
     get_type_from_ring r ≫= get_ring_size_from_type = Ok r)
  ∧ (∀ t, t ∈ supported_dtypes →
     get_ring_size_from_type t ≫= get_type_from_ring = Ok t).
Proof.
  split; [exact registry_converse|]. split.
  - intros r Hr.
    destruct (get_type_from_ring_supported r Hr) as (t & _ & Ht & _).
    rewrite Ht, bind_Ok. by apply registry_converse.
  - intros t Ht.
    destruct (get_ring_size_from_type_cases t)
      as [(_ & r & _ & Hr & _)|(Hn & _)]; [|done].
    rewrite Hr, bind_Ok. by apply registry_converse.
Qed.

Lemma registry_lookups_inverse_witness :
  get_type_from_ring (2 ^ 8) ≫= get_ring_size_from_type = Ok (2 ^ 8)
  ∧ get_ring_size_from_type torch_bool ≫= get_type_from_ring = Ok torch_bool.
Proof.
  destruct registry_lookups_inverse as (_ & H1 & H2). split.
  - apply H1. unfold supported_ring_sizes. in_list.
  - apply H2. unfold supported_dtypes. in_list.
Defined.

(** C7.  [get_type_from_ring] raises ValueError on every ring size outside
    the five supported ones and returns the dtype of the table on each of
    the five; [get_ring_size_from_type] raises ValueError exactly on the
    dtypes that have no entry in its table and returns the entry
    otherwise. *)
Theorem lookups_raise_exactly_when_unsupported :
  (∀ r, r ∉ supported_ring_sizes →
     get_type_from_ring r = Raise (ValueError ring_keys_msg))
  ∧ (∀ r, r ∈ supported_ring_sizes →
     ∃ t, RING_SIZE_TO_TYPE !! r = Some t ∧ get_type_from_ring r = Ok t)
  ∧ (∀ t, TYPE_TO_RING_SIZE !! t = None ↔ raises (get_ring_size_from_type t))
  ∧ (∀ t, TYPE_TO_RING_SIZE !! t = None →
     get_ring_size_from_type t = Raise (ValueError type_keys_msg))
  ∧ (∀ t r, TYPE_TO_RING_SIZE !! t = Some r ↔ get_ring_size_from_type t = Ok r)
  ∧ (∀ t, TYPE_TO_RING_SIZE !! t = None ↔ t ∉ supported_dtypes).
Proof.
  split; [exact get_type_from_ring_unsupported|].
  split.
  { intros r Hr. destruct (get_type_from_ring_supported r Hr) as (t & ? & ? & _).
    eauto. }
  split.
  { intros t. unfold raises, get_ring_size_from_type.
    destruct (TYPE_TO_RING_SIZE !! t); split; try done; eauto.
    by intros [? ?]. }
  split.
  { intros t Ht. unfold get_ring_size_from_type. by rewrite Ht. }
  split.
  { intros t r. unfold get_ring_size_from_type.
    destruct (TYPE_TO_RING_SIZE !! t); split; congruence. }
  intros t.
  destruct (get_ring_size_from_type_cases t) as [(? & r & Hr & _)|(? & ? & _)];
    split; try done; congruence.
Qed.

Lemma lookups_raise_exactly_when_unsupported_witness :
  get_type_from_ring 3 = Raise (ValueError ring_keys_msg)
  ∧ get_type_from_ring (2 ^ 16) = Ok torch_int16
  ∧ get_ring_size_from_type torch_float32 = Raise (ValueError type_keys_msg).
Proof.
  destruct lookups_raise_exactly_when_unsupported
    as (H1 & H2 & _ & H4 & _ & _).
  split; [|split].
  - apply H1. unfold supported_ring_sizes. not_in_list.
  - destruct (H2 (2 ^ 16)) as (t & Ht & ->).
    + unfold supported_ring_sizes. in_list.
    + vm_compute in Ht. congruence.
  - apply H4. reflexivity.
Defined.

(** ** get_nr_bits *)

Lemma bit_length_pow2_pred k : 0 ≤ k → bit_length (2 ^ k - 1) = k.
Proof.
  intros Hk. destruct (decide (k = 0)) as [->|Hne]; [reflexivity|].
  assert (Hpos : 0 < 2 ^ k - 1).
  { assert (2 ^ 1 ≤ 2 ^ k) by (apply Z.pow_le_mono_r; lia). lia. }
  destruct (2 ^ k - 1) as [|p|p] eqn:Hp; try lia.
  simpl.
  pose proof (Pos.size_gt p) as Hgt. pose proof (Pos.size_le p) as Hle.
  apply Pos2Z.pos_lt_pos in Hgt. apply Pos2Z.pos_le_pos in Hle.
  rewrite Pos2Z.inj_pow in Hgt, Hle.
  change (Z.pos p~0) with (2 * Z.pos p) in Hle.
  set (s := Z.pos (Pos.size p)) in *.
  assert (Hs : 0 < s) by (subst s; lia).
  destruct (Z.lt_trichotomy s k) as [Hlt|[Heq|Hlt]]; [|done|].
  - assert (H1 : 2 ^ (s + 1) ≤ 2 ^ k) by (apply Z.pow_le_mono_r; lia).
    rewrite Z.pow_add_r in H1 by lia. lia.
  - assert (H1 : 2 ^ (k + 1) ≤ 2 ^ s) by (apply Z.pow_le_mono_r; lia).
    rewrite Z.pow_add_r in H1 by lia. lia.
Qed.

Lemma get_nr_bits_pow2 k : 0 ≤ k → get_nr_bits (2 ^ k) = k.
Proof. apply bit_length_pow2_pred. Qed.

(** C6.  [get_nr_bits(2^k) = k] for the exponents of the five rings, that
    of the boolean ring included: [get_nr_bits(2) = 1]. *)
Theorem get_nr_bits_supported k :
  k ∈ [1; 8; 16; 32; 64] → get_nr_bits (2 ^ k) = k.
Proof.
  intros Hk. apply get_nr_bits_pow2.
  repeat (apply elem_of_cons in Hk as [->|Hk]); try lia.
  by apply elem_of_nil in Hk.
Qed.

Lemma get_nr_bits_supported_witness : get_nr_bits (2 ^ 1) = 1.
Proof.
  apply get_nr_bits_supported. in_list.
Defined.

(** ** Fixed-width arithmetic *)

Lemma bits_pos t : 0 < bits t.
Proof. by destruct t. Qed.

Lemma wrap_in_range t z : in_range t (wrap t z).
Proof.
  unfold in_range, wrap, min_value, max_value.
  assert (H2 : 2 ^ bits t = 2 * 2 ^ (bits t - 1)) by (by destruct t).
  assert (Hp : 0 < 2 ^ bits t) by (by destruct t).
  pose proof (Z.mod_pos_bound (z + 2 ^ (bits t - 1)) (2 ^ bits t) Hp). lia.
Qed.

Lemma wrap_id t z : in_range t z → wrap t z = z.
Proof.
  unfold in_range, wrap, min_value, max_value. intros Hz.
  assert (H2 : 2 ^ bits t = 2 * 2 ^ (bits t - 1)) by (by destruct t).
  rewrite Z.mod_small by lia. lia.
Qed.

Lemma in_range_0 t : in_range t 0.
Proof. by destruct t. Qed.

(** ** Broadcasting between equal shapes *)

Lemma broadcast_rev_same s : broadcast_rev s s = Some s.
Proof.
  induction s as [|n s IH]; simpl; [done|].
  rewrite IH. simpl. by rewrite decide_True.
Qed.

Lemma broadcast_shapes_same s : broadcast_shapes s s = Some s.
Proof.
  unfold broadcast_shapes. rewrite broadcast_rev_same. simpl.
  by rewrite reverse_involutive.
Qed.

Lemma pad_shape_same s : pad_shape s (length s) = s.
Proof. unfold pad_shape. by rewrite Nat.sub_diag. Qed.

Lemma chunks_lengths {A} k n (d : list A) :
  length d = (n * k)%nat → Forall (λ c, length c = k) (chunks k n d).
Proof.
  unfold chunks. revert d. induction n as [|n IH]; intros d Hd; simpl.
  - constructor.
  - constructor.
    + rewrite length_take. lia.
    + apply IH. rewrite length_drop. lia.
Qed.

Lemma join_chunks {A} k n (d : list A) :
  length d = (n * k)%nat → mjoin (chunks k n d) = d.
Proof.
  intros Hd. unfold chunks. apply join_reshape.
  rewrite sum_list_replicate. lia.
Qed.

Lemma expand_aligned_same {A} s (d : list A) :
  length d = numel s → expand_aligned s s d = d.
Proof.
  revert d. induction s as [|n s IH]; intros d Hd; simpl; [done|].
  rewrite decide_True by done. simpl in Hd.
  replace (expand_aligned s s <$> chunks (numel s) n d)
    with (chunks (numel s) n d); [by apply join_chunks|].
  rewrite <- (list_fmap_id (chunks (numel s) n d)) at 1.
  apply Forall_fmap_ext_1.
  eapply List.Forall_impl; [|by apply chunks_lengths].
  intros c Hc. simpl in *. symmetry. by apply IH.
Qed.

Lemma expand_to_same {A} s (d : list A) :
  length d = numel s → expand_to s s d = d.
Proof.
  intros Hd. unfold expand_to. rewrite pad_shape_same.
  by apply expand_aligned_same.
Qed.

Lemma broadcast_with_same {A B C} (f : A → B → C) s dx dy :
  length dx = numel s → length dy = numel s →
  broadcast_with f (Tensor s dx) (Tensor s dy) = Ok (Tensor s (zip_with f dx dy)).
Proof.
  intros Hx Hy. unfold broadcast_with. simpl.
  rewrite broadcast_shapes_same. by rewrite !expand_to_same.
Qed.

Lemma inplace_with_same {A B} (f : A → B → A) s dx dy :
  length dy = numel s →
  inplace_with f (Tensor s dx) (Tensor s dy) = Ok (Tensor s (zip_with f dx dy)).
Proof.
  intros Hy. unfold inplace_with. simpl.
  rewrite broadcast_shapes_same, decide_True by done. by rewrite expand_to_same.
Qed.

(** ** WrapCounter: the loop body on equal-shaped tensors *)

Ltac solve_length :=
  repeat first [rewrite length_fmap | rewrite length_zip_with]; lia.

(** What one pass of the loop body leaves at one element position. *)
Lemma body_element dt acc count s :
  in_range int64 count →
  wrap int64
    (wrap int64
       (count - mask_value (bool_decide (acc < 0) && bool_decide (s < 0)
                            && bool_decide (wrap dt (s + acc) > 0)))
     + mask_value (bool_decide (acc > 0) && bool_decide (s > 0)
                   && bool_decide (wrap dt (s + acc) < 0)))
  = (fold_step dt (acc, count) s).2.
Proof.
  intros Hc. unfold fold_step. rewrite (Z.add_comm s acc).
  set (next := wrap dt (acc + s)). simpl.
  repeat case_bool_decide; simpl; try lia;
    rewrite ?Z.sub_0_r, ?Z.add_0_r;
    rewrite ?(wrap_id int64 count) by done;
    rewrite ?(wrap_id int64 (wrap int64 _)) by apply wrap_in_range;
    try done; try (exfalso; lia).
Qed.

Lemma fold_step_next dt acc count s :
  (fold_step dt (acc, count) s).1 = wrap dt (s + acc).
Proof. unfold fold_step. by rewrite (Z.add_comm s acc). Qed.

Lemma fold_step_count_in_range dt st s :
  in_range int64 st.2 → in_range int64 (fold_step dt st s).2.
Proof.
  destruct st as [acc count]. unfold fold_step. simpl. intros Hc.
  repeat case_bool_decide; try done; apply wrap_in_range.
Qed.

Lemma body_counts dt (st : list (Z * Z)) (cur : list Z) :
  Forall (in_range int64) st.*2 →
  zip_with (λ a b, wrap int64 (a + b))
    (zip_with (λ a b, wrap int64 (a - b)) st.*2
       (mask_value <$>
          zip_with andb
            (zip_with andb ((λ v, bool_decide (v < 0)) <$> st.*1)
                           ((λ v, bool_decide (v < 0)) <$> cur))
            ((λ v, bool_decide (v > 0)) <$>
               zip_with (λ a b, wrap dt (a + b)) cur st.*1)))
    (mask_value <$>
       zip_with andb
         (zip_with andb ((λ v, bool_decide (v > 0)) <$> st.*1)
                        ((λ v, bool_decide (v > 0)) <$> cur))
         ((λ v, bool_decide (v < 0)) <$>
            zip_with (λ a b, wrap dt (a + b)) cur st.*1))
  = (zip_with (fold_step dt) st cur).*2.
Proof.
  revert cur. induction st as [|[acc count] st IH]; intros cur Hr; [done|].
  destruct cur as [|s cur]; [done|].
  rewrite fmap_cons in Hr. apply Forall_cons_1 in Hr as [Hc Hr].
  cbn [fmap list_fmap zip_with fst snd].
  f_equal; [by apply body_element | by apply IH].
Qed.

Lemma body_sums dt (st : list (Z * Z)) (cur : list Z) :
  zip_with (λ a b, wrap dt (a + b)) cur st.*1 = (zip_with (fold_step dt) st cur).*1.
Proof.
  revert cur. induction st as [|[acc count] st IH]; intros [|s cur]; try done.
  cbn [fmap list_fmap zip_with fst]. f_equal; [|by apply IH].
  by rewrite fold_step_next.
Qed.

Lemma count_wraps_body_same dt size (st : list (Z * Z)) (cur : list Z) :
  length st = numel size → length cur = numel size →
  Forall (in_range int64) st.*2 →
  count_wraps_body
    (ITensor int64 (Tensor size st.*2), ITensor dt (Tensor size st.*1))
    (ITensor dt (Tensor size cur))
  = Ok (ITensor int64 (Tensor size (zip_with (fold_step dt) st cur).*2),
        ITensor dt (Tensor size (zip_with (fold_step dt) st cur).*1)).
Proof.
  intros Hst Hcur Hr.
  assert (Hp : promote_types dt dt = dt).
  { unfold promote_types. by case_bool_decide. }
  unfold count_wraps_body, add, and_, isub, iadd, long, lt_scalar, gt_scalar, tmap.
  cbn [idtype ival shape data]. rewrite Hp.
  repeat first
    [ rewrite broadcast_with_same by solve_length
    | rewrite inplace_with_same by solve_length
    | progress (rewrite ?bind_Ok, ?fmap_Ok; cbn [idtype ival shape data]) ].
  rewrite <- body_sums. do 3 f_equal.
  rewrite <- (body_counts dt st cur Hr). reflexivity.
Qed.

(** ** WrapCounter: the loop over the shares *)

Lemma all_step_length dt size st cur :
  length st = numel size → shape (ival cur) = size → wf_itensor cur →
  length (all_step dt st cur) = numel size.
Proof.
  intros Hst Hs [Hwf _]. unfold all_step, wf_tensor in *.
  rewrite length_zip_with. rewrite Hs in Hwf. lia.
Qed.

Lemma all_step_in_range dt st cur :
  Forall (in_range int64) st.*2 →
  Forall (in_range int64) (all_step dt st cur).*2.
Proof.
  unfold all_step. generalize (data (ival cur)) as d.
  induction st as [|x st IH]; intros [|s d] Hr; try constructor.
  - apply fold_step_count_in_range. rewrite fmap_cons in Hr.
    by apply Forall_cons_1 in Hr as [? _].
  - apply IH. rewrite fmap_cons in Hr. by apply Forall_cons_1 in Hr as [_ ?].
Qed.

Lemma for_each_body_same dt size rest : ∀ st : list (Z * Z),
  length st = numel size → Forall (in_range int64) st.*2 →
  wf_shares dt size rest →
  for_each count_wraps_body
    (ITensor int64 (Tensor size st.*2), ITensor dt (Tensor size st.*1)) rest
  = Ok (ITensor int64 (Tensor size (foldl (all_step dt) st rest).*2),
        ITensor dt (Tensor size (foldl (all_step dt) st rest).*1)).
Proof.
  induction rest as [|cur rest IH]; intros st Hst Hr Hwf; [done|].
  apply Forall_cons_1 in Hwf as [(Hdt & Hsz & Hcur) Hwf].
  cbn [for_each foldl].
  destruct cur as [cdt [csz cd]]. simpl in Hdt, Hsz. subst cdt csz.
  rewrite count_wraps_body_same; [|done|apply Hcur|done].
  rewrite bind_Ok. apply IH; [|by apply all_step_in_range|done].
  by eapply all_step_length.
Qed.

(** Position [i] of the state is the fold over the column [i]. *)
Lemma foldl_all_step_lookup dt i rest : ∀ (st : list (Z * Z)) x,
  st !! i = Some x →
  Forall (λ t, (i < length (data (ival t)))%nat) rest →
  foldl (all_step dt) st rest !! i = Some (foldl (fold_step dt) x (column i rest)).
Proof.
  induction rest as [|cur rest IH]; intros st x Hx Hlen; [done|].
  apply Forall_cons_1 in Hlen as [Hcur Hlen]. cbn [foldl column fmap list_fmap].
  apply IH; [|done]. unfold all_step. rewrite lookup_zip_with, Hx. simpl.
  apply lookup_lt_is_Some_2 in Hcur as [s Hs]. rewrite Hs. simpl.
  by rewrite (list_lookup_total_correct _ _ _ Hs).
Qed.

Lemma foldl_all_step_length dt size rest : ∀ st : list (Z * Z),
  length st = numel size → wf_shares dt size rest →
  length (foldl (all_step dt) st rest) = numel size.
Proof.
  induction rest as [|cur rest IH]; intros st Hst Hwf; [done|].
  apply Forall_cons_1 in Hwf as [(Hdt & Hsz & Hcur) Hwf]. cbn [foldl].
  apply IH; [|done]. by eapply all_step_length.
Qed.

Lemma count_wraps_single x : count_wraps [x] = Ok (zeros (shape (ival x)) int64).
Proof. reflexivity. Qed.

Lemma count_wraps_same dt size first rest :
  wf_shares dt size (first :: rest) →
  count_wraps (first :: rest) = Ok (count_wraps_fold dt size (first :: rest)).
Proof.
  intros Hwf. pose proof Hwf as Hall.
  apply Forall_cons_1 in Hwf as [(Hdt & Hsz & Hfirst & _) Hwf].
  destruct first as [fdt [fsz fd]]. simpl in Hdt, Hsz. subst fdt fsz.
  unfold wf_tensor in Hfirst. simpl in Hfirst.
  unfold count_wraps, zeros. cbn [lookup list_lookup drop ival shape].
  set (st := zip fd (replicate (numel size) 0)).
  assert (H1 : st.*1 = fd).
  { unfold st. apply fst_zip. rewrite length_replicate. lia. }
  assert (H2 : st.*2 = replicate (numel size) 0).
  { unfold st. apply snd_zip. rewrite length_replicate. lia. }
  assert (Hlen : length st = numel size).
  { unfold st. rewrite length_zip, length_replicate. lia. }
  rewrite <- H1 at 1. rewrite <- H2, drop_0.
  rewrite (for_each_body_same dt size rest st); [|done| |done].
  2:{ rewrite H2. apply Forall_replicate. apply in_range_0. }
  rewrite bind_Ok. cbn [fst]. unfold count_wraps_fold. do 3 f_equal.
  apply list_eq. intros i.
  rewrite !list_lookup_fmap.
  destruct (decide (i < numel size)%nat) as [Hi|Hi].
  - rewrite lookup_seq_lt by done. cbn [fmap option_fmap option_map].
    assert (Hx : st !! i = Some (fd !!! i, 0)).
    { unfold st. rewrite lookup_zip_with.
      assert (is_Some (fd !! i)) as [v Hv] by (apply lookup_lt_is_Some_2; lia).
      rewrite Hv, (list_lookup_total_correct _ _ _ Hv). simpl.
      by rewrite lookup_replicate_2. }
    rewrite (foldl_all_step_lookup dt i rest st _ Hx); [done|].
    eapply List.Forall_impl; [|exact Hwf].
    intros t (_ & Hs & Hw & _). unfold wf_tensor in Hw. simpl in *.
    rewrite Hw, Hs. done.
  - rewrite lookup_seq_ge by lia.
    rewrite lookup_ge_None_2; [done|].
    rewrite (foldl_all_step_length dt size); [lia|done|done].
Qed.

(** The counter of the result cannot wrap around on a list of at most
    [2^63] shares: the fold with the torch.long counter and the fold with
    an unbounded counter agree. *)
Lemma foldl_fold_step_no_wrap dt rest : ∀ acc count,
  Z.abs count + Z.of_nat (length rest) ≤ 2 ^ 63 - 1 →
  foldl (fold_step dt) (acc, count) rest
  = foldl (fold_step_Z dt) (acc, count) rest.
Proof.
  induction rest as [|s rest IH]; intros acc count Hb; [done|].
  cbn [foldl]. cbn [length] in Hb.
  assert (Hstep : fold_step dt (acc, count) s = fold_step_Z dt (acc, count) s).
  { unfold fold_step, fold_step_Z.
    repeat case_bool_decide; try done; try (exfalso; lia);
      rewrite (wrap_id int64); try done;
      unfold in_range, min_value, max_value; simpl; lia. }
  rewrite Hstep. unfold fold_step_Z.
  repeat case_bool_decide; apply IH; lia.
Qed.

Lemma fold_count_no_wrap dt column :
  Z.of_nat (length column) ≤ 2 ^ 63 →
  fold_count dt column = fold_count_Z dt column.
Proof.
  destruct column as [|s0 rest]; [done|]. cbn [length]. intros Hb.
  unfold fold_count, fold_count_Z.
  rewrite foldl_fold_step_no_wrap; [done|]. simpl Z.abs. lia.
Qed.

(** C1.  On a non-empty list of shares of one shape and one signed
    fixed-width dtype, [count_wraps] returns, at every element position, the
    counter of the left-to-right fold that starts from the first share,
    adds each further share with wrap-around, decrements on two negative
    operands with a positive sum and increments on two positive operands
    with a negative sum; on a list of a single share the result is zero
    everywhere, whatever the share holds. *)
Theorem count_wraps_is_left_fold dt size shares :
  shares ≠ [] → wf_shares dt size shares →
  count_wraps shares = Ok (count_wraps_fold dt size shares)
  ∧ (∀ x, count_wraps [x] = Ok (zeros (shape (ival x)) int64))
  ∧ (Z.of_nat (length shares) ≤ 2 ^ 63 →
     ∀ i, fold_count dt (column i shares) = fold_count_Z dt (column i shares)).
Proof.
  intros Hne Hwf. split; [|split].
  - destruct shares as [|first rest]; [done|]. by apply count_wraps_same.
  - exact count_wraps_single.
  - intros Hlen i. apply fold_count_no_wrap.
    unfold column. by rewrite length_fmap.
Qed.

(** Well-formedness of share sequences given by their elements. *)
Ltac forall_list := repeat first [apply Forall_nil_2 | apply Forall_cons_2].
Ltac prove_wf_shares :=
  unfold wf_shares; forall_list;
  (split; [reflexivity|split; [reflexivity|split; [reflexivity|]]]);
  cbn [vector scalar_tensor ival idtype data]; forall_list;
  unfold in_range, min_value, max_value; simpl; lia.

Lemma count_wraps_is_left_fold_witness :
  let shares :=
    [vector int8 [-128; 100]; vector int8 [-1; 100]; vector int8 [-100; 100]] in
  shares ≠ [] ∧ wf_shares int8 [2%nat] shares
  ∧ count_wraps shares = Ok (count_wraps_fold int8 [2%nat] shares).
Proof.
  intros shares.
  assert (Hne : shares ≠ []) by discriminate.
  assert (Hwf : wf_shares int8 [2%nat] shares).
  { unfold shares. prove_wf_shares. }
  split; [exact Hne|]. split; [exact Hwf|].
  exact (proj1 (count_wraps_is_left_fold int8 [2%nat] shares Hne Hwf)).
Defined.

Example count_wraps_three_shares :
  count_wraps
    [vector int8 [-128; 100]; vector int8 [-1; 100]; vector int8 [-100; 100]]
  = Ok (ITensor int64 (Tensor [2%nat] [-1; 1])).
Proof. reflexivity. Qed.

(** On tensors of one shape the loop never raises, whatever the dtypes. *)
Lemma count_wraps_body_returns size res prev cur :
  shaped size res → shaped size prev → shaped size cur →
  ∃ res' next, count_wraps_body (res, prev) cur = Ok (res', next)
    ∧ shaped size res' ∧ shaped size next.
Proof.
  destruct res as [rdt [rs rd]], prev as [pdt [ps pd]], cur as [cdt [cs cd]].
  unfold shaped, wf_tensor. cbn [ival shape data].
  intros [-> Hr] [-> Hp] [-> Hc].
  unfold count_wraps_body, add, and_, isub, iadd, long, lt_scalar, gt_scalar, tmap.
  cbn [idtype ival shape data].
  repeat first
    [ rewrite broadcast_with_same by solve_length
    | rewrite inplace_with_same by solve_length
    | progress (rewrite ?bind_Ok, ?fmap_Ok; cbn [idtype ival shape data]) ].
  eexists _, _. split; [reflexivity|].
  cbn [ival shape data]. split; (split; [reflexivity|solve_length]).
Qed.

Lemma for_each_body_returns size rest : ∀ res prev,
  shaped size res → shaped size prev → equal_shaped size rest →
  returns (for_each count_wraps_body (res, prev) rest).
Proof.
  induction rest as [|cur rest IH]; intros res prev Hres Hprev Hrest.
  - by eexists.
  - apply Forall_cons_1 in Hrest as [Hcur Hrest]. cbn [for_each].
    destruct (count_wraps_body_returns size res prev cur)
      as (res' & next & -> & Hres' & Hnext); [done..|].
    rewrite bind_Ok. by apply IH.
Qed.

Lemma count_wraps_returns size shares :
  shares ≠ [] → equal_shaped size shares → returns (count_wraps shares).
Proof.
  destruct shares as [|first rest]; [done|]. intros _ Hall.
  apply Forall_cons_1 in Hall as [Hfirst Hrest].
  unfold count_wraps. cbn [lookup list_lookup drop]. rewrite drop_0.
  destruct (for_each_body_returns size rest
              (zeros (shape (ival first)) int64) first) as [st Hst];
    [|done|done|].
  - destruct Hfirst as [-> _]. split; [reflexivity|].
    unfold wf_tensor. cbn [zeros ival data shape]. by rewrite length_replicate.
  - rewrite Hst, bind_Ok. by eexists.
Qed.

Lemma wf_shares_equal_shaped dt size shares :
  wf_shares dt size shares → equal_shaped size shares.
Proof.
  apply List.Forall_impl. intros t (_ & Hs & Hwf & _). by split.
Qed.

(** C10.  [count_wraps] fails on the empty list with the IndexError of
    [share_list[0]] and returns no tensor; on every non-empty list of
    shares, which are tensors of one shape, it returns. *)
Theorem count_wraps_defined_iff_nonempty :
  count_wraps [] = Raise (IndexError index_msg)
  ∧ (∀ size shares, shares ≠ [] → equal_shaped size shares →
       returns (count_wraps shares)).
Proof. split; [reflexivity|exact count_wraps_returns]. Qed.

Lemma count_wraps_defined_iff_nonempty_witness :
  count_wraps [] = Raise (IndexError index_msg)
  ∧ returns (count_wraps [vector int16 [7; -7; 0]; vector int8 [1; 2; 3]]).
Proof.
  split; [exact (proj1 count_wraps_defined_iff_nonempty)|].
  apply (proj2 count_wraps_defined_iff_nonempty [3%nat]); [discriminate|].
  unfold equal_shaped. forall_list; by split.
Defined.

(** Tensors of different shapes are not a share sequence; there the
    broadcasting of torch decides, and it can refuse. *)
Example count_wraps_shape_mismatch :
  count_wraps [vector int8 [1; 2]; vector int8 [1; 2; 3]]
  = Raise (RuntimeError broadcast_msg)
  ∧ count_wraps [vector int8 [1]; vector int8 [1; 2; 3]]
    = Raise (RuntimeError inplace_msg)
  ∧ count_wraps [vector int8 [100; -100]; vector int8 [100]]
    = Ok (ITensor int64 (Tensor [2%nat] [1; 0])).
Proof. repeat split; reflexivity. Qed.

(** ** WrapCounter on two shares *)

(** The counter of two shares is the number of wrap-arounds of their sum,
    unless both are the most negative value. *)
Lemma count_two_shares dt a b :
  in_range dt a → in_range dt b →
  ¬ (a = min_value dt ∧ b = min_value dt) →
  fold_count dt [a; b] = true_wraps dt a b.
Proof.
  unfold in_range, fold_count, true_wraps, fold_step. cbn [foldl snd].
  intros Ha Hb Hne.
  destruct dt; unfold wrap, min_value, max_value, bits in *;
    simpl Z.pow in *; simpl Z.sub in *;
    repeat case_bool_decide; simpl; Z.div_mod_to_equations; lia.
Qed.

(** C2.  For two shares that both hold the most negative value of the
    dtype, the sum wraps to [0], one wrap-around has taken place, and
    [count_wraps] reports [0]: the test [next_share > 0] does not see it. *)
Theorem count_wraps_two_most_negative dt :
  wrap dt (min_value dt + min_value dt) = 0
  ∧ true_wraps dt (min_value dt) (min_value dt) = -1
  ∧ count_wraps [scalar_tensor dt (min_value dt); scalar_tensor dt (min_value dt)]
    = Ok (ITensor int64 (Tensor [] [0])).
Proof. by destruct dt. Qed.

Example count_wraps_int8_min_min :
  count_wraps [vector int8 [-128]; vector int8 [-128]]
  = Ok (ITensor int64 (Tensor [1%nat] [0])).
Proof. reflexivity. Qed.

Example count_wraps_int8_min_minus_one :
  count_wraps [vector int8 [-128]; vector int8 [-1]]
  = Ok (ITensor int64 (Tensor [1%nat] [-1])).
Proof. reflexivity. Qed.

(** ** Broadcasting in [decompose] *)

Lemma numel_app s1 s2 : numel (s1 ++ s2) = (numel s1 * numel s2)%nat.
Proof.
  induction s1 as [|n s1 IH]; simpl; [lia|]. rewrite IH. lia.
Qed.

Lemma numel_ones k : numel (replicate k 1%nat) = 1%nat.
Proof. induction k as [|k IH]; simpl; [done|]. rewrite IH. done. Qed.

Lemma broadcast_rev_ones l : ∀ k,
  broadcast_rev l (replicate k 1%nat)
  = Some (l ++ replicate (k - length l) 1%nat).
Proof.
  induction l as [|a l IH]; intros k.
  - simpl. by rewrite Nat.sub_0_r.
  - destruct k as [|k]; simpl.
    + by rewrite app_nil_r.
    + rewrite IH. simpl.
      by destruct (decide (a = 1%nat)) as [->|Hne].
Qed.

Lemma broadcast_shapes_decompose s k nb :
  broadcast_shapes (s ++ [1%nat]) (replicate k 1%nat ++ [nb])
  = Some (replicate (k - length s) 1%nat ++ s ++ [nb]).
Proof.
  unfold broadcast_shapes.
  rewrite !reverse_app, reverse_replicate. simpl.
  rewrite broadcast_rev_ones. simpl.
  replace (if decide (1%nat = nb) then Some (1%nat :: reverse s ++ replicate (k - length (reverse s)) 1%nat)
           else Some (nb :: reverse s ++ replicate (k - length (reverse s)) 1%nat))
    with (Some (nb :: reverse s ++ replicate (k - length (reverse s)) 1%nat))
    by (by case_decide; subst).
  simpl. rewrite reverse_cons, reverse_app, reverse_replicate, reverse_involutive.
  by rewrite length_reverse, <- app_assoc.
Qed.

Lemma join_fmap_bind {A B} (f : A → list B) (cs : list (list A)) :
  mjoin ((λ c, c ≫= f) <$> cs) = mjoin cs ≫= f.
Proof.
  induction cs as [|c cs IH]; [done|]. csimpl. by rewrite IH, bind_app.
Qed.

Lemma join_replicate_singleton {A} n (v : A) :
  mjoin (replicate n [v]) = replicate n v.
Proof. induction n as [|n IH]; [done|]. simpl. by rewrite IH. Qed.

Lemma join_replicate_join {A} m n (l : list A) :
  mjoin (replicate m (mjoin (replicate n l))) = mjoin (replicate (m * n) l).
Proof.
  induction m as [|m IH]; [done|]. simpl.
  by rewrite IH, replicate_add, join_app.
Qed.

(** The data of [tensor.unsqueeze(-1)] at the broadcast shape: each
    element is repeated along the new last axis. *)
Lemma expand_aligned_last {A} nb p : ∀ d : list A,
  length d = numel p →
  expand_aligned (p ++ [1%nat]) (p ++ [nb]) d = d ≫= replicate nb.
Proof.
  induction p as [|n p IH]; intros d Hd.
  - destruct d as [|v [|? ?]]; try done. simpl.
    case_decide as Hnb.
    + subst nb. reflexivity.
    + by rewrite join_replicate_singleton, app_nil_r.
  - simpl in Hd. simpl. rewrite decide_True by done.
    rewrite numel_app. simpl. rewrite Nat.mul_1_r.
    rewrite <- (join_chunks (numel p) n d) at 2 by done.
    rewrite <- join_fmap_bind. f_equal.
    apply Forall_fmap_ext_1.
    eapply List.Forall_impl; [|by apply chunks_lengths].
    intros c Hc. by apply IH.
Qed.

(** The data of [powers] at the broadcast shape: the exponents are
    repeated for each element. *)
Lemma expand_aligned_powers {A} nb q : ∀ pw : list A,
  length pw = nb →
  expand_aligned (replicate (length q) 1%nat ++ [nb]) (q ++ [nb]) pw
  = mjoin (replicate (numel q) pw).
Proof.
  induction q as [|m q IH]; intros pw Hpw.
  - simpl. rewrite decide_True by done. rewrite app_nil_r.
    replace (expand_aligned [] [] <$> chunks 1 nb pw) with (chunks 1 nb pw).
    + apply join_chunks. lia.
    + rewrite <- (list_fmap_id (chunks 1 nb pw)) at 1.
      apply Forall_fmap_ext_1, Forall_forall. intros c _. by destruct c.
  - simpl. rewrite numel_app, numel_ones. simpl. rewrite Nat.add_0_r.
    case_decide as Hm.
    + subst m. unfold chunks. simpl.
      rewrite Nat.mul_1_r, Nat.add_0_r, app_nil_r.
      rewrite take_ge by (rewrite Hpw; apply Nat.le_refl). by apply IH.
    + rewrite IH by done. apply join_replicate_join.
Qed.

Lemma zip_with_bind_replicate {A B C} (f : A → B → C) (pw : list B) :
  ∀ d : list A,
  zip_with f (d ≫= replicate (length pw)) (mjoin (replicate (length d) pw))
  = d ≫= (λ v, f v <$> pw).
Proof.
  induction d as [|v d IH]; [done|].
  rewrite !bind_cons. cbn [length replicate].
  change (mjoin (pw :: ?l)) with (pw ++ mjoin l).
  rewrite zip_with_app by (by rewrite length_replicate).
  rewrite IH. f_equal. by apply zip_with_replicate_l.
Qed.

Lemma fmap_bind_list {A B C} (g : B → C) (f : A → list B) (l : list A) :
  g <$> (l ≫= f) = l ≫= (λ x, g <$> f x).
Proof.
  induction l as [|x l IH]; [done|].
  by rewrite !bind_cons, fmap_app, IH.
Qed.

Lemma iter_unsqueeze_first {A} k (x : tensor A) :
  Nat.iter k unsqueeze_first x = Tensor (replicate k 1%nat ++ shape x) (data x).
Proof.
  induction k as [|k IH]; simpl; [by destruct x|]. by rewrite IH.
Qed.

Lemma broadcast_with_decompose {A B C} (f : A → B → C) s d k (pw : list B) :
  length d = numel s →
  broadcast_with f (Tensor (s ++ [1%nat]) d)
                   (Tensor (replicate k 1%nat ++ [length pw]) pw)
  = Ok (Tensor (replicate (k - length s) 1%nat ++ s ++ [length pw])
               (d ≫= λ v, f v <$> pw)).
Proof.
  intros Hd. unfold broadcast_with. cbn [shape data].
  rewrite broadcast_shapes_decompose. do 2 f_equal.
  set (P := replicate (k - length s) 1%nat).
  assert (HP : length P = (k - length s)%nat) by apply length_replicate.
  assert (Hnum : numel (P ++ s) = numel s).
  { rewrite numel_app. unfold P. rewrite numel_ones. lia. }
  assert (E1 : expand_to (s ++ [1%nat]) (P ++ s ++ [length pw]) d
               = d ≫= replicate (length pw)).
  { unfold expand_to, pad_shape. rewrite !length_app. cbn [length].
    replace (length P + (length s + 1) - (length s + 1))%nat
      with (k - length s)%nat by lia.
    fold P. rewrite !app_assoc. apply expand_aligned_last. by rewrite Hnum. }
  assert (E2 : expand_to (replicate k 1%nat ++ [length pw])
                 (P ++ s ++ [length pw]) pw
               = mjoin (replicate (length d) pw)).
  { unfold expand_to, pad_shape. rewrite !length_app, length_replicate.
    cbn [length]. rewrite app_assoc, <- replicate_add.
    replace (length P + (length s + 1) - (k + 1) + k)%nat
      with (length (P ++ s)) by (rewrite length_app; lia).
    rewrite app_assoc, expand_aligned_powers by done.
    by rewrite Hnum, Hd. }
  rewrite E1, E2. apply zip_with_bind_replicate.
Qed.

(** What [decompose] returns for a ring of a signed integer dtype: a last
    axis of [bits dt] entries, the bits of each element, after the leading
    axes of size 1 that a longer [shape] argument adds. *)
Lemma decompose_elements dt tensor shape_arg :
  wf_tensor (ival tensor) →
  decompose tensor (2 ^ bits dt) shape_arg
  = Ok (ITensor dt
          (Tensor
             (replicate (length (default (shape (ival tensor)) shape_arg)
                         - length (shape (ival tensor))) 1%nat
              ++ shape (ival tensor) ++ [Z.to_nat (bits dt)])
             (data (ival tensor) ≫= bit_vector dt))).
Proof.
  intros Hwf. unfold decompose.
  assert (Ht : get_type_from_ring (2 ^ bits dt) = Ok (to_dtype dt))
    by (by destruct dt).
  assert (Hn : get_nr_bits (2 ^ bits dt) = bits dt)
    by (apply get_nr_bits_pow2; by destruct dt).
  rewrite Ht, bind_Ok, Hn.
  assert (Ha : arange (bits dt) (to_dtype dt)
               = Ok (ITensor dt (Tensor [Z.to_nat (bits dt)]
                                        (wrap dt <$> seqZ 0 (bits dt)))))
    by (by destruct dt).
  rewrite Ha, bind_Ok. cbn [idtype ival].
  rewrite iter_unsqueeze_first.
  unfold true_divide, to_int, rpow, unsqueeze_last, tmap.
  cbn [idtype ival shape data].
  set (moduli := wrap dt <$> ((λ p, wrap dt (2 ^ p)) <$> (wrap dt <$> seqZ 0 (bits dt)))).
  assert (Hm : moduli = modulus dt <$> seqZ 0 (bits dt)).
  { unfold moduli, modulus. by rewrite <- !list_fmap_compose. }
  assert (Hl : Z.to_nat (bits dt) = length moduli).
  { rewrite Hm, length_fmap, length_seqZ. done. }
  rewrite Hl.
  rewrite broadcast_with_decompose by exact Hwf.
  rewrite bind_Ok. unfold float_to_int, fmod, tmap. cbn [shape data].
  do 3 f_equal.
  rewrite !fmap_bind_list. apply list_bind_ext; [|done].
  intros v. unfold bit_vector, decompose_bit. rewrite Hm.
  by rewrite <- !list_fmap_compose.
Qed.

(** ** BitDecomposer *)

(** C9.  [decompose] reads of its [shape] argument the number of
    dimensions only: two arguments of the same length give the same result,
    and so do no argument and an argument that has as many dimensions as
    the tensor. *)
Theorem decompose_shape_by_length tensor ring_size :
  (∀ s1 s2, length s1 = length s2 →
     decompose tensor ring_size (Some s1) = decompose tensor ring_size (Some s2))
  ∧ (∀ s, length s = length (shape (ival tensor)) →
     decompose tensor ring_size None = decompose tensor ring_size (Some s)).
Proof.
  split.
  - intros s1 s2 Hlen. unfold decompose. cbn [from_option id]. by rewrite Hlen.
  - intros s Hlen. unfold decompose. cbn [from_option id]. by rewrite Hlen.
Qed.

Lemma decompose_shape_by_length_witness :
  decompose (vector int8 [5; -3]) (2 ^ 8) (Some [7%nat; 9%nat])
  = decompose (vector int8 [5; -3]) (2 ^ 8) (Some [2%nat; 1%nat])
  ∧ decompose (vector int8 [5; -3]) (2 ^ 8) None
    = decompose (vector int8 [5; -3]) (2 ^ 8) (Some [4%nat]).
Proof.
  split.
  - apply (proj1 (decompose_shape_by_length (vector int8 [5; -3]) (2 ^ 8))).
    reflexivity.
  - apply (proj2 (decompose_shape_by_length (vector int8 [5; -3]) (2 ^ 8))).
    reflexivity.
Defined.

(** The number of dimensions does matter: a longer [shape] adds leading
    axes to the result. *)
Example decompose_longer_shape :
  shape <$> (ival <$> decompose (vector int8 [5; -3]) (2 ^ 8) None)
  = Ok [2%nat; 8%nat]
  ∧ shape <$> (ival <$> decompose (vector int8 [5; -3]) (2 ^ 8)
                          (Some [7%nat; 9%nat; 1%nat]))
    = Ok [1%nat; 1%nat; 2%nat; 8%nat].
Proof. split; reflexivity. Qed.

(** C4.  In the ring of size [2^8], with dtype int8 and 8 bits, the value
    5 decomposes into [1,0,1,0,0,0,0,0] along the new last axis, least
    significant bit first. *)
Theorem decompose_five :
  get_type_from_ring (2 ^ 8) = Ok torch_int8
  ∧ get_nr_bits (2 ^ 8) = 8
  ∧ decompose (scalar_tensor int8 5) (2 ^ 8) None
    = Ok (ITensor int8 (Tensor [8%nat] [1; 0; 1; 0; 0; 0; 0; 0]))
  ∧ decompose (vector int8 [5]) (2 ^ 8) None
    = Ok (ITensor int8 (Tensor [1%nat; 8%nat] [1; 0; 1; 0; 0; 0; 0; 0])).
Proof. repeat split; reflexivity. Qed.

(** The round trip holds, element by element, in the ring of size [2^8],
    whose elements float32 holds exactly; the bits of a negative element
    are those of its absolute value, negated. *)
Lemma all_from_spec P n : ∀ lo v,
  all_from P lo n = true → lo ≤ v < lo + Z.of_nat n → P v = true.
Proof.
  induction n as [|n IH]; intros lo v Hall Hv; [lia|].
  cbn [all_from] in Hall. apply andb_true_iff in Hall as [Hlo Hall].
  destruct (decide (v = lo)) as [->|Hne]; [done|].
  apply (IH (lo + 1)); [done|lia].
Qed.

Lemma roundtrip_all dt :
  all_from (roundtrip_ok dt) (min_value dt) (Z.to_nat (2 ^ bits dt)) = true →
  ∀ v, in_range dt v →
    recompose (bit_vector dt v) `mod` 2 ^ bits dt = v `mod` 2 ^ bits dt.
Proof.
  intros Hall v Hv.
  assert (Hin : roundtrip_ok dt v = true).
  { eapply all_from_spec; [exact Hall|].
    unfold in_range, min_value, max_value in *.
    assert (2 ^ bits dt = 2 * 2 ^ (bits dt - 1)) by (by destruct dt). lia. }
  unfold roundtrip_ok in Hin. by apply bool_decide_eq_true in Hin.
Qed.

Lemma roundtrip_int8 v :
  in_range int8 v → recompose (bit_vector int8 v) `mod` 2 ^ 8 = v `mod` 2 ^ 8.
Proof. apply (roundtrip_all int8). vm_compute. reflexivity. Qed.

Lemma decompose_roundtrip_int8 tensor :
  idtype tensor = int8 → wf_itensor tensor →
  ∃ out, decompose tensor (2 ^ 8) None = Ok out
    ∧ data (ival out) = data (ival tensor) ≫= bit_vector int8
    ∧ Forall (λ v, recompose (bit_vector int8 v) `mod` 2 ^ 8 = v `mod` 2 ^ 8)
        (data (ival tensor)).
Proof.
  intros Hdt [Hwf Hr]. eexists. split; [|split].
  - apply (decompose_elements int8 tensor None Hwf).
  - reflexivity.
  - rewrite Hdt in Hr. eapply List.Forall_impl; [|exact Hr].
    intros v Hv. by apply roundtrip_int8.
Qed.

(** In the ring of size [2^16] as well, at both ends of the range and
    around zero. *)
Example roundtrip_int16_samples :
  all_from (roundtrip_ok int16) (-32768) 64 = true
  ∧ all_from (roundtrip_ok int16) (-32) 64 = true
  ∧ all_from (roundtrip_ok int16) 32704 64 = true.
Proof. split; [|split]; vm_compute; reflexivity. Qed.

Example decompose_negative :
  decompose (vector int8 [-5; -128]) (2 ^ 8) None
  = Ok (ITensor int8 (Tensor [2%nat; 8%nat]
          [-1; 0; -1; 0; 0; 0; 0; 0;  0; 0; 0; 0; 0; 0; 0; 1])).
Proof. reflexivity. Qed.

(** C3.  In the ring of size [2^32] the round trip fails: 16777217 is a
    value of int32 that float32 does not hold, the division is done on
    16777216, and the bits returned add up to 16777216. *)
Theorem decompose_roundtrip_fails_int32 :
  in_range int32 16777217
  ∧ get_type_from_ring (2 ^ 32) = Ok torch_int32
  ∧ f32_of_Z 16777217 = f32_of_Z 16777216
  ∧ ∃ bits,
      decompose (scalar_tensor int32 16777217) (2 ^ 32) None
      = Ok (ITensor int32 (Tensor [32%nat] bits))
      ∧ recompose bits `mod` 2 ^ 32 = 16777216
      ∧ recompose bits `mod` 2 ^ 32 ≠ 16777217 `mod` 2 ^ 32.
Proof.
  split; [by vm_compute|]. split; [reflexivity|]. split; [reflexivity|].
  eexists. split; [vm_compute; reflexivity|]. split; [reflexivity|].
  vm_compute. discriminate.
Qed.

Example decompose_roundtrip_fails_int64 :
  ∃ bits,
    decompose (scalar_tensor int64 (2 ^ 62 + 1)) (2 ^ 64) None
    = Ok (ITensor int64 (Tensor [64%nat] bits))
    ∧ recompose bits `mod` 2 ^ 64 = 2 ^ 62.
Proof. eexists. split; [vm_compute; reflexivity|reflexivity]. Qed.

(** In the boolean ring [decompose] stops at [torch.arange]. *)
Example decompose_boolean_ring tensor shape_arg :
  decompose tensor (2 ^ 1) shape_arg = Raise (RuntimeError arange_msg).
Proof. reflexivity. Qed.

(** ** SeededRandomRing *)

Section SeededRandomRingFacts.
Context {gen_state : Type}.
Variable create : Z → gen_state.
Variable fill : dtype → string → list nat → gen_state → list Z * gen_state.





End SeededRandomRingFacts.


(** * Further properties *)

(** ** WrapCounter: the count and the sum of the shares *)

Lemma wrap_unique dt z x k :
  in_range dt x → z = x + 2 ^ bits dt * k → wrap dt z = x.
Proof.
  unfold in_range, min_value, max_value, wrap. intros Hx ->.
  assert (H2 : 2 ^ bits dt = 2 * 2 ^ (bits dt - 1)) by (by destruct dt).
  replace (x + 2 ^ bits dt * k + 2 ^ (bits dt - 1))
    with (x + 2 ^ (bits dt - 1) + k * 2 ^ bits dt) by lia.
  rewrite Z_mod_plus_full, Z.mod_small by lia. lia.
Qed.

(** One step of the loop at one position: the sum of the two operands is
    the wrapped sum plus the ring size times the change of the counter,
    less the wrap-around that the step has missed. *)
Lemma fold_step_Z_sum dt acc count s :
  in_range dt acc → in_range dt s →
  acc + s
  = (fold_step_Z dt (acc, count) s).1
    + 2 ^ bits dt
      * ((fold_step_Z dt (acc, count) s).2 - count
         - (if bool_decide (acc = min_value dt ∧ s = min_value dt)
            then 1 else 0)).
Proof.
  unfold in_range, fold_step_Z. cbn [fst snd]. intros Ha Hs.
  destruct dt; unfold wrap, min_value, max_value, bits in *;
    simpl Z.pow in *; simpl Z.sub in *;
    repeat case_bool_decide; Z.div_mod_to_equations; lia.
Qed.

Lemma fold_step_Z_acc dt st s : (fold_step_Z dt st s).1 = wrap dt (st.1 + s).
Proof. by destruct st. Qed.

Lemma foldl_fold_step_Z_sum dt rest : ∀ acc count,
  in_range dt acc → Forall (in_range dt) rest →
  acc + sumZ rest
  = (foldl (fold_step_Z dt) (acc, count) rest).1
    + 2 ^ bits dt
      * ((foldl (fold_step_Z dt) (acc, count) rest).2 - count
         - missed_from dt acc rest)
  ∧ in_range dt (foldl (fold_step_Z dt) (acc, count) rest).1.
Proof.
  induction rest as [|s rest IH]; intros acc count Ha Hr.
  - cbn [foldl sumZ foldr missed_from fst snd]. split; [lia|done].
  - apply Forall_cons_1 in Hr as [Hs Hr].
    cbn [foldl sumZ foldr missed_from].
    pose proof (fold_step_Z_sum dt acc count s Ha Hs) as Hstep.
    destruct (fold_step_Z dt (acc, count) s) as [next count'] eqn:Hfs.
    assert (Hnext : next = wrap dt (acc + s)).
    { pose proof (fold_step_Z_acc dt (acc, count) s) as Hacc.
      by rewrite Hfs in Hacc. }
    cbn [fst snd] in Hstep.
    destruct (IH next count') as [Hsum Hin]; [|done|].
    { rewrite Hnext. apply wrap_in_range. }
    split; [|done]. rewrite <- Hnext. fold (sumZ rest). lia.
Qed.

(** The wrap count of one position: the sum of the shares is its wrapped
    value plus the ring size times the count, less the missed steps. *)
Lemma fold_count_Z_sum dt column :
  Forall (in_range dt) column →
  sumZ column
  = wrap dt (sumZ column)
    + 2 ^ bits dt * (fold_count_Z dt column - missed_wraps dt column).
Proof.
  destruct column as [|s0 rest]; intros Hr.
  - cbn. rewrite wrap_id by apply in_range_0. lia.
  - apply Forall_cons_1 in Hr as [H0 Hr].
    destruct (foldl_fold_step_Z_sum dt rest s0 0 H0 Hr) as [Hsum Hin].
    unfold fold_count_Z, missed_wraps. cbn [sumZ foldr]. fold (sumZ rest).
    rewrite (wrap_unique dt _ _ _ Hin Hsum). lia.
Qed.

(** The element of the result at a position is the fold over the column. *)
Lemma count_wraps_lookup dt size shares r i :
  wf_shares dt size shares → count_wraps shares = Ok r → (i < numel size)%nat →
  data (ival r) !!! i = fold_count dt (column i shares).
Proof.
  intros Hwf Hr Hi. destruct shares as [|first rest]; [done|].
  rewrite (count_wraps_same dt size first rest Hwf) in Hr.
  injection Hr as <-. unfold count_wraps_fold. cbn [ival data].
  apply list_lookup_total_correct.
  by rewrite list_lookup_fmap, lookup_seq_lt.
Qed.

Lemma column_in_range dt size shares i :
  wf_shares dt size shares → (i < numel size)%nat →
  Forall (in_range dt) (column i shares).
Proof.
  intros Hwf Hi. unfold column. apply Forall_fmap.
  eapply List.Forall_impl; [|exact Hwf].
  intros t (Hdt & Hs & Hlen & Hr). simpl.
  unfold wf_tensor in Hlen. rewrite Hs in Hlen.
  rewrite Forall_lookup in Hr. rewrite <- Hdt.
  apply (Hr i). apply list_lookup_lookup_total_lt. lia.
Qed.

Lemma count_wraps_sum_at dt size shares r i :
  wf_shares dt size shares → Z.of_nat (length shares) ≤ 2 ^ 63 →
  count_wraps shares = Ok r → (i < numel size)%nat →
  sumZ (column i shares)
  = wrap dt (sumZ (column i shares))
    + 2 ^ bits dt
      * (data (ival r) !!! i - missed_wraps dt (column i shares)).
Proof.
  intros Hwf Hlen Hr Hi.
  rewrite (count_wraps_lookup dt size shares r i Hwf Hr Hi).
  rewrite fold_count_no_wrap by (unfold column; by rewrite length_fmap).
  apply fold_count_Z_sum. by eapply column_in_range.
Qed.

(** X1.  For shares of one shape and dtype, at every position the sum of
    the shares as integers is the wrapped sum plus the ring size times the
    count, once the count is corrected by the steps that added two most
    negative values. *)
Theorem count_wraps_counts_wraparounds dt size shares r i :
  wf_shares dt size shares → Z.of_nat (length shares) ≤ 2 ^ 63 →
  count_wraps shares = Ok r → (i < numel size)%nat →
  sumZ (column i shares)
  = wrap dt (sumZ (column i shares))
    + 2 ^ bits dt
      * (data (ival r) !!! i - missed_wraps dt (column i shares)).
Proof. exact (count_wraps_sum_at dt size shares r i). Qed.

Lemma count_wraps_counts_wraparounds_witness :
  let shares :=
    [vector int8 [-128; 100]; vector int8 [-128; 100]; vector int8 [-1; 100]] in
  ∃ r, count_wraps shares = Ok r
    ∧ sumZ (column 0 shares)
      = wrap int8 (sumZ (column 0 shares))
        + 2 ^ 8 * (data (ival r) !!! 0%nat - missed_wraps int8 (column 0 shares)).
Proof.
  intros shares. eexists. split; [reflexivity|].
  apply (count_wraps_counts_wraparounds int8 [2%nat] shares).
  - unfold shares. prove_wf_shares.
  - simpl. lia.
  - reflexivity.
  - simpl. lia.
Defined.

(** ** WrapCounter: the order of the shares *)

Lemma sumZ_Permutation l1 l2 : l1 ≡ₚ l2 → sumZ l1 = sumZ l2.
Proof.
  unfold sumZ. induction 1; simpl; lia.
Qed.

(** X2.  The order of the shares changes the count at a position only
    through the steps that add two most negative values: the count corrected
    by those steps is the same for every order of the shares. *)
Theorem count_wraps_order dt size shares shares' r r' i :
  shares ≡ₚ shares' →
  wf_shares dt size shares → Z.of_nat (length shares) ≤ 2 ^ 63 →
  count_wraps shares = Ok r → count_wraps shares' = Ok r' →
  (i < numel size)%nat →
  data (ival r) !!! i - missed_wraps dt (column i shares)
  = data (ival r') !!! i - missed_wraps dt (column i shares').
Proof.
  intros Hp Hwf Hlen Hr Hr' Hi.
  assert (Hwf' : wf_shares dt size shares').
  { unfold wf_shares in *. by rewrite <- Hp. }
  assert (Hlen' : Z.of_nat (length shares') ≤ 2 ^ 63) by (by rewrite <- Hp).
  pose proof (count_wraps_sum_at dt size shares r i Hwf Hlen Hr Hi) as H1.
  pose proof (count_wraps_sum_at dt size shares' r' i Hwf' Hlen' Hr' Hi) as H2.
  assert (Hs : sumZ (column i shares) = sumZ (column i shares')).
  { apply sumZ_Permutation. unfold column. by apply fmap_Permutation. }
  rewrite Hs in H1. rewrite H2 in H1 at 1.
  assert (0 < 2 ^ bits dt) by (by destruct dt). nia.
Qed.

Lemma count_wraps_order_witness :
  let shares := [vector int8 [100]; vector int8 [100]; vector int8 [-100]] in
  let shares' := [vector int8 [100]; vector int8 [-100]; vector int8 [100]] in
  ∃ r r', count_wraps shares = Ok r ∧ count_wraps shares' = Ok r'
    ∧ data (ival r) !!! 0%nat - missed_wraps int8 (column 0 shares)
      = data (ival r') !!! 0%nat - missed_wraps int8 (column 0 shares').
Proof.
  intros shares shares'. eexists _, _. split; [reflexivity|]. split; [reflexivity|].
  apply (count_wraps_order int8 [1%nat] shares shares').
  - unfold shares, shares'. apply perm_skip, perm_swap.
  - unfold shares. prove_wf_shares.
  - simpl. lia.
  - reflexivity.
  - reflexivity.
  - simpl. lia.
Defined.

(** ** WrapCounter: the size of the count *)

Lemma foldl_fold_step_Z_bound dt rest : ∀ acc count,
  Z.abs ((foldl (fold_step_Z dt) (acc, count) rest).2 - count)
  ≤ Z.of_nat (length rest).
Proof.
  induction rest as [|s rest IH]; intros acc count; cbn [foldl length].
  - simpl. lia.
  - destruct (fold_step_Z dt (acc, count) s) as [next count'] eqn:Hfs.
    assert (Hc : Z.abs (count' - count) ≤ 1).
    { unfold fold_step_Z in Hfs. injection Hfs as _ <-.
      repeat case_bool_decide; lia. }
    specialize (IH next count'). lia.
Qed.

Lemma count_wraps_bound_at dt size shares r i :
  wf_shares dt size shares → Z.of_nat (length shares) ≤ 2 ^ 63 →
  count_wraps shares = Ok r → (i < numel size)%nat →
  Z.abs (data (ival r) !!! i) ≤ Z.of_nat (length shares) - 1.
Proof.
  intros Hwf Hlen Hr Hi.
  rewrite (count_wraps_lookup dt size shares r i Hwf Hr Hi).
  rewrite fold_count_no_wrap by (unfold column; by rewrite length_fmap).
  destruct shares as [|first rest]; [done|].
  unfold column. cbn [fmap list_fmap fold_count_Z length].
  pose proof (foldl_fold_step_Z_bound dt
                ((λ t, data (ival t) !!! i) <$> rest)
                (data (ival first) !!! i) 0) as Hb.
  rewrite length_fmap in Hb. lia.
Qed.

(** X3.  Each step changes a count by at most one: for [n] shares of one
    shape and dtype every element of the result lies between [-(n-1)] and
    [n-1]. *)
Theorem count_wraps_bounded dt size shares r :
  wf_shares dt size shares → Z.of_nat (length shares) ≤ 2 ^ 63 →
  count_wraps shares = Ok r →
  Forall (λ c, Z.abs c ≤ Z.of_nat (length shares) - 1) (data (ival r)).
Proof.
  intros Hwf Hlen Hr. apply Forall_lookup. intros i c Hc.
  assert (Hi : (i < numel size)%nat).
  { apply lookup_lt_Some in Hc.
    destruct shares as [|first rest]; [done|].
    rewrite (count_wraps_same dt size first rest Hwf) in Hr.
    injection Hr as <-. unfold count_wraps_fold in Hc. cbn [ival data] in Hc.
    by rewrite length_fmap, length_seq in Hc. }
  rewrite <- (list_lookup_total_correct _ _ _ Hc).
  by eapply count_wraps_bound_at.
Qed.

Lemma count_wraps_bounded_witness :
  let shares := [vector int8 [100; -100]; vector int8 [100; -100]] in
  ∃ r, count_wraps shares = Ok r
    ∧ Forall (λ c, Z.abs c ≤ Z.of_nat (length shares) - 1) (data (ival r)).
Proof.
  intros shares. eexists. split; [reflexivity|].
  apply (count_wraps_bounded int8 [2%nat] shares).
  - unfold shares. prove_wf_shares.
  - simpl. lia.
  - reflexivity.
Defined.

(** ** WrapCounter: a share of zeros *)

Lemma fold_step_zero dt acc count :
  in_range dt acc → fold_step dt (acc, count) 0 = (acc, count).
Proof.
  intros Ha. unfold fold_step. rewrite Z.add_0_r, wrap_id by done.
  repeat case_bool_decide; try done; lia.
Qed.

Lemma fold_step_from_zero dt count s :
  in_range dt s → fold_step dt (0, count) s = (s, count).
Proof.
  intros Hs. unfold fold_step. rewrite Z.add_0_l, wrap_id by done.
  repeat case_bool_decide; try done; lia.
Qed.

Lemma foldl_fold_step_in_range dt rest : ∀ acc count,
  in_range dt acc → in_range dt (foldl (fold_step dt) (acc, count) rest).1.
Proof.
  induction rest as [|s rest IH]; intros acc count Ha; [done|].
  cbn [foldl].
  destruct (fold_step dt (acc, count) s) as [next count'] eqn:Hfs.
  apply IH. pose proof (fold_step_next dt acc count s) as Hn.
  rewrite Hfs in Hn. simpl in Hn. rewrite Hn. apply wrap_in_range.
Qed.

Lemma fold_count_zero dt c1 c2 :
  Forall (in_range dt) (c1 ++ c2) → c1 ++ c2 ≠ [] →
  fold_count dt (c1 ++ 0 :: c2) = fold_count dt (c1 ++ c2).
Proof.
  intros Hr Hne. destruct c1 as [|x c1].
  - destruct c2 as [|x c2]; [done|]. cbn [app] in *.
    apply Forall_cons_1 in Hr as [Hx _].
    unfold fold_count. cbn [foldl]. by rewrite fold_step_from_zero.
  - cbn [app] in *. apply Forall_cons_1 in Hr as [Hx _].
    unfold fold_count. rewrite !foldl_app. cbn [foldl].
    pose proof (foldl_fold_step_in_range dt c1 x 0 Hx) as Hin.
    destruct (foldl (fold_step dt) (x, 0) c1) as [acc count].
    by rewrite fold_step_zero.
Qed.

Lemma count_wraps_zero_share_anywhere dt size l1 l2 :
  l1 ++ l2 ≠ [] → wf_shares dt size (l1 ++ l2) →
  count_wraps (l1 ++ zeros size dt :: l2) = count_wraps (l1 ++ l2).
Proof.
  intros Hne Hwf.
  assert (Hz : wf_shares dt size [zeros size dt]).
  { apply Forall_singleton. split; [done|]. split; [done|]. split.
    - unfold wf_tensor. cbn. by rewrite length_replicate.
    - cbn. apply Forall_replicate, in_range_0. }
  assert (Hwf' : wf_shares dt size (l1 ++ zeros size dt :: l2)).
  { unfold wf_shares in *. apply Forall_app in Hwf as [H1 H2].
    apply Forall_app. split; [done|]. apply Forall_cons_2; [|done].
    apply (Forall_inv Hz). }
  assert (E1 : count_wraps (l1 ++ l2) = Ok (count_wraps_fold dt size (l1 ++ l2))).
  { destruct (l1 ++ l2) as [|first rest] eqn:E; [done|].
    by apply count_wraps_same. }
  assert (E2 : count_wraps (l1 ++ zeros size dt :: l2)
               = Ok (count_wraps_fold dt size (l1 ++ zeros size dt :: l2))).
  { destruct (l1 ++ zeros size dt :: l2) as [|first rest] eqn:E.
    - by destruct l1.
    - by apply count_wraps_same. }
  rewrite E1, E2. unfold count_wraps_fold. do 3 f_equal.
  apply list_fmap_ext. intros k i Hi.
  apply lookup_seq in Hi as [-> Hi]. cbn [Nat.add].
  unfold column. rewrite !fmap_app, fmap_cons.
  cbn [zeros ival data]. rewrite lookup_total_replicate_2 by done.
  apply fold_count_zero.
  - rewrite <- fmap_app. by eapply column_in_range.
  - rewrite <- fmap_app. intros Hnil. by apply fmap_nil_inv in Hnil.
Qed.

(** X4.  A share of zeros counts for nothing: put anywhere among shares
    of one shape and dtype, it leaves the result as it is. *)
Theorem count_wraps_zero_share dt size l1 l2 :
  l1 ++ l2 ≠ [] → wf_shares dt size (l1 ++ l2) →
  count_wraps (l1 ++ zeros size dt :: l2) = count_wraps (l1 ++ l2).
Proof. exact (count_wraps_zero_share_anywhere dt size l1 l2). Qed.

Lemma count_wraps_zero_share_witness :
  count_wraps ([vector int8 [100; -7]] ++ zeros [2%nat] int8 :: [vector int8 [100; -128]])
  = count_wraps ([vector int8 [100; -7]] ++ [vector int8 [100; -128]]).
Proof.
  apply (count_wraps_zero_share int8 [2%nat]); [discriminate|].
  cbn [app]. prove_wf_shares.
Defined.

(** ** WrapCounter: the shape and dtype of the result *)

Ltac destruct_bind H :=
  repeat match type of H with
  | (?m ≫= _) = Ok _ =>
      let E := fresh "E" in
      destruct m eqn:E;
      [rewrite bind_Ok in H | rewrite bind_Raise in H; discriminate H]
  end.

Lemma inplace_with_shape {A B} (f : A → B → A) x y z :
  inplace_with f x y = Ok z → shape z = shape x.
Proof.
  unfold inplace_with. destruct (broadcast_shapes _ _); [|done].
  case_decide; [|done]. intros [= <-]. done.
Qed.

Lemma isub_keeps x y z :
  isub x y = Ok z → idtype z = idtype x ∧ shape (ival z) = shape (ival x).
Proof.
  unfold isub. destruct (inplace_with _ _ _) as [t|] eqn:E; [|done].
  rewrite fmap_Ok. intros [= <-]. split; [done|].
  by apply inplace_with_shape in E.
Qed.

Lemma iadd_keeps x y z :
  iadd x y = Ok z → idtype z = idtype x ∧ shape (ival z) = shape (ival x).
Proof.
  unfold iadd. destruct (inplace_with _ _ _) as [t|] eqn:E; [|done].
  rewrite fmap_Ok. intros [= <-]. split; [done|].
  by apply inplace_with_shape in E.
Qed.

Lemma count_wraps_body_keeps res prev cur res' next :
  count_wraps_body (res, prev) cur = Ok (res', next) →
  idtype res' = idtype res ∧ shape (ival res') = shape (ival res).
Proof.
  unfold count_wraps_body. intros H. destruct_bind H.
  injection H as <- <-.
  match goal with
  | H1 : isub _ _ = Ok ?a, H2 : iadd ?a _ = Ok _ |- _ =>
      apply isub_keeps in H1 as [? ?]; apply iadd_keeps in H2 as [? ?]
  end.
  split; congruence.
Qed.

Lemma for_each_body_keeps rest : ∀ res prev st,
  for_each count_wraps_body (res, prev) rest = Ok st →
  idtype st.1 = idtype res ∧ shape (ival st.1) = shape (ival res).
Proof.
  induction rest as [|cur rest IH]; intros res prev st H.
  - cbn in H. by injection H as <-.
  - cbn [for_each] in H. destruct_bind H.
    match goal with
    | E : count_wraps_body _ _ = Ok ?a |- _ =>
        destruct a as [res' next];
        apply count_wraps_body_keeps in E as [? ?]
    end.
    apply IH in H as [? ?]. split; congruence.
Qed.

Lemma count_wraps_keeps_first share_list first r :
  share_list !! 0%nat = Some first → count_wraps share_list = Ok r →
  idtype r = int64 ∧ shape (ival r) = shape (ival first).
Proof.
  unfold count_wraps. intros -> H. destruct_bind H. injection H as <-.
  match goal with
  | E : for_each _ _ _ = Ok _ |- _ => by apply for_each_body_keeps in E
  end.
Qed.

(** X5.  Whatever the shapes and dtypes of the shares, a result of
    [count_wraps] is a torch.long tensor of the shape of the first share:
    a later share may be broadcast to that shape and never enlarges it. *)
Theorem count_wraps_result_shape share_list first r :
  share_list !! 0%nat = Some first → count_wraps share_list = Ok r →
  idtype r = int64 ∧ shape (ival r) = shape (ival first).
Proof. exact (count_wraps_keeps_first share_list first r). Qed.

Lemma count_wraps_result_shape_witness :
  ∃ r, count_wraps [vector int16 [100; -100]; vector int8 [100]] = Ok r
    ∧ idtype r = int64 ∧ shape (ival r) = [2%nat].
Proof.
  eexists. split; [reflexivity|].
  apply (count_wraps_result_shape
           [vector int16 [100; -100]; vector int8 [100]]
           (vector int16 [100; -100])); reflexivity.
Defined.

(** ** get_nr_bits and the registry *)

Lemma get_nr_bits_ceil_log2 n :
  1 ≤ n →
  0 ≤ get_nr_bits n ∧ n ≤ 2 ^ get_nr_bits n
  ∧ (∀ k, 0 ≤ k → n ≤ 2 ^ k → get_nr_bits n ≤ k).
Proof.
  intros Hn. unfold get_nr_bits.
  destruct (n - 1) as [|p|p] eqn:Hp; try lia.
  - assert (n = 1) as -> by lia. cbn. split; [lia|]. split; [lia|]. intros; lia.
  - cbn [bit_length].
    pose proof (Pos.size_gt p) as Hgt. pose proof (Pos.size_le p) as Hle.
    apply Pos2Z.pos_lt_pos in Hgt. apply Pos2Z.pos_le_pos in Hle.
    rewrite Pos2Z.inj_pow in Hgt, Hle.
    change (Z.pos p~0) with (2 * Z.pos p) in Hle.
    set (s := Z.pos (Pos.size p)) in *.
    assert (Hs : 0 < s) by (subst s; lia).
    split; [lia|]. split; [lia|]. intros k Hk Hnk.
    destruct (Z.le_gt_cases s k) as [|Hlt]; [done|]. exfalso.
    assert (H1 : 2 ^ (k + 1) ≤ 2 ^ s) by (apply Z.pow_le_mono_r; lia).
    rewrite Z.pow_add_r in H1 by lia. lia.
Qed.

(** X6.  For a ring size [n >= 1], [get_nr_bits n] is the least number
    of bits [k] with [n <= 2^k], whether or not [n] is a power of two. *)
Theorem get_nr_bits_least n :
  1 ≤ n →
  0 ≤ get_nr_bits n ∧ n ≤ 2 ^ get_nr_bits n
  ∧ (∀ k, 0 ≤ k → n ≤ 2 ^ k → get_nr_bits n ≤ k).
Proof. exact (get_nr_bits_ceil_log2 n). Qed.

Lemma get_nr_bits_least_witness :
  0 ≤ get_nr_bits 1000 ∧ 1000 ≤ 2 ^ get_nr_bits 1000
  ∧ (∀ k, 0 ≤ k → 1000 ≤ 2 ^ k → get_nr_bits 1000 ≤ k).
Proof. apply get_nr_bits_least. lia. Defined.

Lemma registry_width r t :
  get_type_from_ring r = Ok t →
  2 ^ get_nr_bits r = r
  ∧ (∀ dt, int_dtype_of t = Some dt → get_nr_bits r = bits dt).
Proof.
  destruct (decide (r ∈ supported_ring_sizes)) as [Hr|Hr].
  - unfold supported_ring_sizes in Hr.
    repeat (apply elem_of_cons in Hr as [->|Hr]);
      [..|by apply elem_of_nil in Hr];
      intros H; vm_compute in H; injection H as <-;
      (split; [reflexivity|]); intros dt Hdt; vm_compute in Hdt;
      try discriminate Hdt; injection Hdt as <-; reflexivity.
  - by rewrite get_type_from_ring_unsupported.
Qed.

(** X7.  The registry and [get_nr_bits] agree: a ring size that has a
    dtype is [2] to the power of its number of bits, and that number is the
    width of the dtype when the dtype is a signed integer one. *)
Theorem registry_agrees_with_nr_bits r t :
  get_type_from_ring r = Ok t →
  2 ^ get_nr_bits r = r
  ∧ (∀ dt, int_dtype_of t = Some dt → get_nr_bits r = bits dt).
Proof. exact (registry_width r t). Qed.

Lemma registry_agrees_with_nr_bits_witness :
  2 ^ get_nr_bits (2 ^ 32) = 2 ^ 32
  ∧ (∀ dt, int_dtype_of torch_int32 = Some dt → get_nr_bits (2 ^ 32) = bits dt).
Proof. apply (registry_agrees_with_nr_bits (2 ^ 32) torch_int32). reflexivity. Defined.

(** ** BitDecomposer: errors and the shape of the result *)

Lemma decompose_unsupported tensor r shape_arg :
  r ∉ supported_ring_sizes →
  decompose tensor r shape_arg = Raise (ValueError ring_keys_msg).
Proof.
  intros Hr. unfold decompose. by rewrite get_type_from_ring_unsupported.
Qed.

(** X8.  [decompose] passes on the ValueError of the registry for every
    ring size outside the supported ones, before it looks at the tensor;
    in the ring of each signed integer dtype it returns. *)
Theorem decompose_raises_or_returns tensor shape_arg :
  (∀ r, r ∉ supported_ring_sizes →
     decompose tensor r shape_arg = Raise (ValueError ring_keys_msg))
  ∧ (∀ dt, wf_tensor (ival tensor) →
     returns (decompose tensor (2 ^ bits dt) shape_arg)).
Proof.
  split.
  - intros r. apply decompose_unsupported.
  - intros dt Hwf. eexists. by apply decompose_elements.
Qed.

Lemma decompose_raises_or_returns_witness :
  decompose (vector int8 [5; -3]) 100 None = Raise (ValueError ring_keys_msg)
  ∧ returns (decompose (vector int8 [5; -3]) (2 ^ bits int16) None).
Proof.
  destruct (decompose_raises_or_returns (vector int8 [5; -3]) None) as [H1 H2].
  split.
  - apply H1. unfold supported_ring_sizes. not_in_list.
  - apply H2. reflexivity.
Defined.

Lemma length_bind_const {A B} (f : A → list B) k (d : list A) :
  (∀ v, length (f v) = k) → length (d ≫= f) = (length d * k)%nat.
Proof.
  intros Hf. induction d as [|v d IH]; [done|].
  rewrite bind_cons, length_app, Hf, IH. simpl. lia.
Qed.

Lemma length_bit_vector dt v : length (bit_vector dt v) = Z.to_nat (bits dt).
Proof. unfold bit_vector. by rewrite length_fmap, length_seqZ. Qed.

Lemma decompose_shape dt tensor shape_arg :
  wf_tensor (ival tensor) →
  ∃ out, decompose tensor (2 ^ bits dt) shape_arg = Ok out
    ∧ idtype out = dt
    ∧ shape (ival out)
      = replicate (length (default (shape (ival tensor)) shape_arg)
                   - length (shape (ival tensor))) 1%nat
        ++ shape (ival tensor) ++ [Z.to_nat (bits dt)]
    ∧ wf_tensor (ival out).
Proof.
  intros Hwf. eexists. split; [by apply decompose_elements|].
  split; [done|]. split; [done|].
  unfold wf_tensor in *. cbn [ival shape data].
  rewrite (length_bind_const _ (Z.to_nat (bits dt)))
    by apply length_bit_vector.
  rewrite !numel_app, numel_ones, Hwf. simpl. lia.
Qed.

(** X9.  In the ring of a signed integer dtype the result of [decompose]
    has that dtype and the shape of the tensor followed by one axis of as
    many entries as the dtype has bits, after one leading axis of size 1
    for each dimension by which the [shape] argument is longer than the
    shape of the tensor; its data fill that shape. *)
Theorem decompose_result_shape dt tensor shape_arg :
  wf_tensor (ival tensor) →
  ∃ out, decompose tensor (2 ^ bits dt) shape_arg = Ok out
    ∧ idtype out = dt
    ∧ shape (ival out)
      = replicate (length (default (shape (ival tensor)) shape_arg)
                   - length (shape (ival tensor))) 1%nat
        ++ shape (ival tensor) ++ [Z.to_nat (bits dt)]
    ∧ wf_tensor (ival out).
Proof. exact (decompose_shape dt tensor shape_arg). Qed.

Lemma decompose_result_shape_witness :
  ∃ out,
    decompose (ITensor int16 (Tensor [2%nat; 3%nat] [1; 2; 3; 4; 5; 6]))
      (2 ^ bits int16) (Some [7%nat; 7%nat; 7%nat; 7%nat]) = Ok out
    ∧ idtype out = int16
    ∧ shape (ival out) = [1%nat; 1%nat; 2%nat; 3%nat; 16%nat]
    ∧ wf_tensor (ival out).
Proof.
  apply (decompose_result_shape int16
           (ITensor int16 (Tensor [2%nat; 3%nat] [1; 2; 3; 4; 5; 6]))
           (Some [7%nat; 7%nat; 7%nat; 7%nat])).
  reflexivity.
Defined.

(** ** BitDecomposer: the bits in the ring of size 2^8 *)

Lemma digits_int8 v :
  in_range int8 v →
  bit_vector int8 v = signed_digits int8 v
  ∧ recompose (bit_vector int8 v) = recomposed_value int8 v.
Proof.
  intros Hv.
  assert (Hb : -128 ≤ v < -128 + Z.of_nat 256).
  { unfold in_range, min_value, max_value in Hv. simpl in Hv. lia. }
  assert (Hok : digits_ok int8 v = true).
  { apply (all_from_spec (digits_ok int8) 256 (-128) v); [|exact Hb].
    vm_compute. reflexivity. }
  unfold digits_ok in Hok. by apply bool_decide_eq_true in Hok.
Qed.

Lemma bind_ext_Forall {A B} (f g : A → list B) (P : A → Prop) (d : list A) :
  (∀ v, P v → f v = g v) → Forall P d → d ≫= f = d ≫= g.
Proof.
  intros Hfg. induction 1 as [|v d Hv _ IH]; [done|].
  by rewrite !bind_cons, IH, (Hfg v Hv).
Qed.

Lemma chunks_bind {A B} (f : A → list B) k (d : list A) :
  (∀ v, length (f v) = k) → chunks k (length d) (d ≫= f) = f <$> d.
Proof.
  intros Hf. unfold chunks. induction d as [|v d IH]; [done|].
  rewrite bind_cons. cbn [length replicate reshape fmap list_fmap].
  rewrite take_app_length', drop_app_length' by (by rewrite Hf).
  by rewrite IH.
Qed.

Lemma decompose_int8_data tensor shape_arg :
  idtype tensor = int8 → wf_itensor tensor →
  ∃ out, decompose tensor (2 ^ 8) shape_arg = Ok out
    ∧ data (ival out) = data (ival tensor) ≫= signed_digits int8
    ∧ recompose <$> chunks 8 (length (data (ival tensor))) (data (ival out))
      = recomposed_value int8 <$> data (ival tensor).
Proof.
  intros Hdt [Hwf Hr]. rewrite Hdt in Hr.
  eexists. split; [apply (decompose_elements int8 tensor shape_arg Hwf)|].
  cbn [ival data]. split.
  - apply (bind_ext_Forall _ _ (in_range int8)); [|done].
    intros v Hv. by apply digits_int8.
  - rewrite (chunks_bind (bit_vector int8) 8) by apply length_bit_vector.
    rewrite <- list_fmap_compose. apply Forall_fmap_ext_1.
    eapply List.Forall_impl; [|exact Hr].
    intros v Hv. simpl. by apply digits_int8.
Qed.

(** X10.  In the ring of size [2^8] the bits of a non-negative element
    are its binary digits, least significant first; those of a negative
    element are the digits of its absolute value, each negated, not the
    two's complement digits; and those of -128 are seven zeros and a one. *)
Theorem decompose_int8_signed_digits tensor shape_arg :
  idtype tensor = int8 → wf_itensor tensor →
  ∃ out, decompose tensor (2 ^ 8) shape_arg = Ok out
    ∧ data (ival out) = data (ival tensor) ≫= signed_digits int8.
Proof.
  intros Hdt Hwf.
  destruct (decompose_int8_data tensor shape_arg Hdt Hwf) as (out & ? & ? & _).
  eauto.
Qed.

Lemma decompose_int8_signed_digits_witness :
  ∃ out, decompose (vector int8 [6; -6; -128]) (2 ^ 8) None = Ok out
    ∧ data (ival out)
      = [0; 1; 1; 0; 0; 0; 0; 0;  0; -1; -1; 0; 0; 0; 0; 0;
         0; 0; 0; 0; 0; 0; 0; 1].
Proof.
  apply (decompose_int8_signed_digits (vector int8 [6; -6; -128]) None);
    [reflexivity|].
  split; [reflexivity|]. cbn [vector idtype ival data]. forall_list;
    unfold in_range, min_value, max_value; simpl; lia.
Defined.

(** X11.  In the ring of size [2^8] the bits of every element add up,
    with their weights [2^i], to the element itself, and to +128 for the
    element -128. *)
Theorem decompose_int8_recompose tensor shape_arg :
  idtype tensor = int8 → wf_itensor tensor →
  ∃ out, decompose tensor (2 ^ 8) shape_arg = Ok out
    ∧ recompose <$> chunks 8 (length (data (ival tensor))) (data (ival out))
      = recomposed_value int8 <$> data (ival tensor).
Proof.
  intros Hdt Hwf.
  destruct (decompose_int8_data tensor shape_arg Hdt Hwf) as (out & ? & _ & ?).
  eauto.
Qed.

Lemma decompose_int8_recompose_witness :
  ∃ out, decompose (vector int8 [6; -6; -128]) (2 ^ 8) None = Ok out
    ∧ recompose <$> chunks 8 3 (data (ival out)) = [6; -6; 128].
Proof.
  apply (decompose_int8_recompose (vector int8 [6; -6; -128]) None);
    [reflexivity|].
  split; [reflexivity|]. cbn [vector idtype ival data]. forall_list;
    unfold in_range, min_value, max_value; simpl; lia.
Defined.

(** ** WrapCounter: when the count is exact *)

Lemma missed_from_none dt rest : ∀ acc,
  Forall (λ s, s ≠ min_value dt) rest → missed_from dt acc rest = 0.
Proof.
  induction rest as [|s rest IH]; intros acc Hr; [done|].
  apply Forall_cons_1 in Hr as [Hs Hr]. cbn [missed_from].
  rewrite bool_decide_false by tauto. by rewrite IH.
Qed.

Lemma count_wraps_exact_at dt size shares r i :
  wf_shares dt size shares → Z.of_nat (length shares) ≤ 2 ^ 63 →
  count_wraps shares = Ok r → (i < numel size)%nat →
  Forall (λ s, s ≠ min_value dt) (drop 1 (column i shares)) →
  sumZ (column i shares)
  = wrap dt (sumZ (column i shares)) + 2 ^ bits dt * data (ival r) !!! i.
Proof.
  intros Hwf Hlen Hr Hi Hmin.
  rewrite (count_wraps_sum_at dt size shares r i Hwf Hlen Hr Hi) at 1.
  destruct shares as [|first rest]; [done|].
  unfold column in *. cbn [fmap list_fmap drop missed_wraps] in *.
  rewrite drop_0 in Hmin. rewrite missed_from_none by done. lia.
Qed.

(** X12.  Where no share after the first holds the most negative value of
    the dtype, the count is exact: the sum of the shares as integers is the
    wrapped sum plus the ring size times the count. *)
Theorem count_wraps_exact dt size shares r i :
  wf_shares dt size shares → Z.of_nat (length shares) ≤ 2 ^ 63 →
  count_wraps shares = Ok r → (i < numel size)%nat →
  Forall (λ s, s ≠ min_value dt) (drop 1 (column i shares)) →
  sumZ (column i shares)
  = wrap dt (sumZ (column i shares)) + 2 ^ bits dt * data (ival r) !!! i.
Proof. exact (count_wraps_exact_at dt size shares r i). Qed.

Lemma count_wraps_exact_witness :
  let shares :=
    [vector int8 [-128; 100]; vector int8 [-1; 100]; vector int8 [-100; 100]] in
  ∃ r, count_wraps shares = Ok r
    ∧ sumZ (column 1 shares)
      = wrap int8 (sumZ (column 1 shares)) + 2 ^ 8 * data (ival r) !!! 1%nat.
Proof.
  intros shares. eexists. split; [reflexivity|].
  apply (count_wraps_exact int8 [2%nat] shares).
  - unfold shares. prove_wf_shares.
  - simpl. lia.
  - reflexivity.
  - simpl. lia.
  - cbn. forall_list; discriminate.
Defined.
